(** * readlen: reading statistics for text files

    A shallow embedding of [index.ts] and of its [parseArgs] twin (the entry
    point with the [--totalOnly] flag), with the properties of the written
    specification stated and proved over it.

    Conventions of the embedding:
    - a JavaScript string is the list of its UTF-16 code units;
    - a JavaScript [number] holding a count is a [Z]; [formatReadTime],
      whose argument may be fractional, is embedded twice: over [Q] with
      exact arithmetic, which is how the report uses it on its whole numbers
      of minutes, and as [IEEE.formatReadTime] with the roundings of
      doubles; the two agree on whole minutes below 2^53;
    - the host functions the program calls ([String.prototype.toLowerCase],
      [Bun.file], [Bun.Glob]) are parameters of the definitions that use
      them; [RegExp] matching and [String.prototype.split] are embedded from
      their ECMAScript algorithms for the two patterns of the program;
    - the colours of [chalk] are left out: a styled text is the text. *)

From Equations Require Import Equations.
From Stdlib Require Import Strings.String Strings.Ascii Numbers.DecimalString.
From Stdlib Require Import List Arith ZArith NArith QArith Qround Lia Bool.
From Stdlib Require Import Sorting.Permutation QArith.Qpower QArith.Qabs Lqa.
Import ListNotations.

Set Implicit Arguments.
Close Scope Q_scope.
Open Scope nat_scope.

(** ** JavaScript strings *)

Module JS.

Definition codeUnit := N.
Definition jsstring := list codeUnit.

(** [Boolean(s)] for a string: only the empty string is falsy. *)
Definition truthy (s : jsstring) : bool :=
  match s with
  | [] => false
  | _ :: _ => true
  end.

(** [s.substring(p, q)] for [p <= q]. *)
Definition substring (s : jsstring) (p q : nat) : jsstring :=
  firstn (q - p) (skipn p s).

(** The code units matched by [\s]: WhiteSpace and LineTerminator of
    ECMAScript (all of them in the basic plane). *)
Definition isWhiteSpace (c : codeUnit) : bool :=
  ((9 <=? c) && (c <=? 13)              (* TAB LF VT FF CR *)
   || (c =? 32)                          (* SPACE *)
   || (c =? 160)                         (* NO-BREAK SPACE *)
   || (c =? 5760)                        (* OGHAM SPACE MARK *)
   || ((8192 <=? c) && (c <=? 8202))     (* EN QUAD .. HAIR SPACE *)
   || (c =? 8232) || (c =? 8233)         (* LINE / PARAGRAPH SEPARATOR *)
   || (c =? 8239) || (c =? 8287)         (* NARROW NBSP, MEDIUM MATH SPACE *)
   || (c =? 12288)                       (* IDEOGRAPHIC SPACE *)
   || (c =? 65279))%N.                   (* ZERO WIDTH NO-BREAK SPACE *)

Definition LF : codeUnit := 10%N.

(** [\n] *)
Definition isNewline (c : codeUnit) : bool := (c =? LF)%N.

(** *** The regular expressions of the program

    Both patterns are sequences of quantified character classes, matched by
    backtracking with greedy quantifiers. *)

Inductive quantifier := Once | ZeroOrMore | OneOrMore.

Definition regex := list ((codeUnit -> bool) * quantifier).

(** [/\s+/] *)
Definition reWhiteSpaceRun : regex := [(isWhiteSpace, OneOrMore)].

(** [/\n\s*\n/] *)
Definition reBlankLine : regex :=
  [(isNewline, Once); (isWhiteSpace, ZeroOrMore); (isNewline, Once)].

(** Greedy repetition of a class: take one more unit while the rest still
    matches, else hand over to the continuation [k]. The result is the
    number of units consumed. *)
Fixpoint greedy (cls : codeUnit -> bool) (k : jsstring -> option nat)
    (s : jsstring) : option nat :=
  match s with
  | c :: s' =>
      if cls c then
        match greedy cls k s' with
        | Some n => Some (S n)
        | None => k s
        end
      else k s
  | [] => k s
  end.

(** A match anchored at the head of [s] (the sticky match that [split]
    performs at [lastIndex]); the result is the length of the match. *)
Fixpoint matchHere (re : regex) (s : jsstring) : option nat :=
  match re with
  | [] => Some 0
  | (cls, Once) :: re' =>
      match s with
      | c :: s' => if cls c then option_map S (matchHere re' s') else None
      | [] => None
      end
  | (cls, ZeroOrMore) :: re' => greedy cls (matchHere re') s
  | (cls, OneOrMore) :: re' =>
      match s with
      | c :: s' =>
          if cls c then option_map S (greedy cls (matchHere re') s') else None
      | [] => None
      end
  end.

(** *** String.prototype.split with a regular expression separator

    The loop of RegExp.prototype[Symbol.split]: [p] is the start of the
    piece being collected and [q] the position where a match is tried. The
    pattern has no capture groups and no limit is given. *)
Equations? splitLoop (re : regex) (s : jsstring) (p q : nat) : list jsstring
    by wf (2 * (length s - q) + (if Nat.eq_dec p q then 0 else 1)) lt :=
  splitLoop re s p q with lt_dec q (length s) => {
    | right _ := [substring s p (length s)];
    | left Hq with matchHere re (skipn q s) => {
        | None := splitLoop re s p (S q);
        | Some n with Nat.eq_dec (Nat.min (q + n) (length s)) p => {
            | left _ := splitLoop re s p (S q);
            | right He :=
                substring s p q
                  :: splitLoop re s (Nat.min (q + n) (length s))
                                    (Nat.min (q + n) (length s)) } } }.
Proof.
  all: repeat match goal with
         | |- context [Nat.eq_dec ?a ?b] => destruct (Nat.eq_dec a b)
         end; lia.
Qed.

Definition split (re : regex) (s : jsstring) : list jsstring :=
  match s with
  | [] =>
      match matchHere re [] with
      | Some _ => []
      | None => [s]
      end
  | _ :: _ => splitLoop re s 0 0
  end.

End JS.

Import JS.

(** ** JavaScript numbers used by the program *)

(** [a % b] on numbers: the remainder takes the sign of the dividend. *)
Definition Qtruncate (x : Q) : Z :=
  if Qle_bool 0 x then Qfloor x else Qceiling x.

Definition jsRem (a b : Q) : Q :=
  (a - b * inject_Z (Qtruncate (a / b)))%Q.

(** [Math.round]: the nearest integer, ties towards plus infinity. *)
Definition mathRound (x : Q) : Z := Qfloor (x + (1 # 2))%Q.

(** An integer-valued number inside a template literal. *)
Definition showNumber (n : Z) : string :=
  NilZero.string_of_int (Z.to_int n).

(** ** The text metrics: [processText] *)

Record Metrics := {
  wordCount : Z;
  charCount : Z;
  paragraphCount : Z;
  readTime : Z
}.

Record FileStats := {
  path : string;
  metrics :> Metrics
}.

(* median silent reading rate for native English speakers *)
Definition SILENT_READING_WPM : Z := 238.

Section ProcessText.

(** [String.prototype.toLowerCase] of the host. *)
Variable toLowerCase : jsstring -> jsstring.

Definition processText (text : jsstring) : Metrics :=
  let normalizedText := toLowerCase text in
  let words := filter truthy (split reWhiteSpaceRun normalizedText) in
  let wordCount := Z.of_nat (length words) in
  let charCount := Z.of_nat (length normalizedText) in
  let paragraphCount :=
    Z.of_nat (length (filter truthy (split reBlankLine normalizedText))) in
  let readTime :=
    Qceiling (inject_Z wordCount / inject_Z SILENT_READING_WPM) in
  {| wordCount := wordCount;
     charCount := charCount;
     paragraphCount := paragraphCount;
     readTime := readTime |}.

End ProcessText.

(** The lower-casing of the host restricted to what it does on the letters
    A-Z; every other code unit is left as it is. It instantiates
    [toLowerCase] wherever a concrete run of the program is evaluated. *)
Definition asciiLowerUnit (c : codeUnit) : codeUnit :=
  if ((65 <=? c) && (c <=? 90))%N then (c + 32)%N else c.

Definition asciiToLowerCase (s : jsstring) : jsstring := map asciiLowerUnit s.

Definition ofAscii (s : string) : jsstring :=
  map N_of_ascii (list_ascii_of_string s).

(** ** Formatting: [formatReadTime] and [formatNumber] *)

Open Scope string_scope.

(** [parts.push(x)] *)
Definition push {A} (parts : list A) (x : A) : list A := (parts ++ [x])%list.

(** With exact arithmetic: the function as the report calls it, on a whole
    number of minutes. [IEEE.formatReadTime] below is the function on any
    double. *)
Definition formatReadTime (minutes : Q) : string :=
  let hours := Qfloor (minutes / 60) in
  let remainingMinutes := Qfloor (jsRem minutes 60) in
  let seconds := mathRound (jsRem minutes 1 * 60) in
  let parts : list string := [] in
  let parts :=
    if (hours >? 0)%Z
    then push parts (showNumber hours ++ " " ++
                     (if (hours =? 1)%Z then "hour" else "hours"))
    else parts in
  let parts :=
    if (remainingMinutes >? 0)%Z
    then push parts (showNumber remainingMinutes ++ " " ++
                     (if (remainingMinutes =? 1)%Z then "minute" else "minutes"))
    else parts in
  let parts :=
    if ((seconds >? 0)%Z && (hours =? 0)%Z)%bool
    then push parts (showNumber seconds ++ " " ++
                     (if (seconds =? 1)%Z then "second" else "seconds"))
    else parts in
  if (0 <? length parts)%nat then String.concat ", " parts else "< 1 second".

(** Digits in groups of three, from the least significant one: [ds] is the
    reversed digit list and [k] the number of digits still to go into the
    current group. *)
Fixpoint groupDigits (ds : list ascii) (k : nat) : list ascii :=
  match ds with
  | [] => []
  | d :: ds' =>
      match k with
      | O => ","%char :: d :: groupDigits ds' 2
      | S k' => d :: groupDigits ds' k'
      end
  end.

(** [num.toLocaleString("en-US", { useGrouping: true })] on an integer. *)
Definition formatNumber (num : Z) : string :=
  let digits := list_ascii_of_string (showNumber (Z.abs num)) in
  (if (num <? 0)%Z then "-" else "") ++
  string_of_list_ascii (rev (groupDigits (rev digits) 3)).

Close Scope string_scope.

(** ** JavaScript numbers as doubles

    A JavaScript number is a binary64 value. The finite ones are rationals,
    and [/] and [*] give the double nearest to the exact result, ties to the
    even significand; [%], [Math.floor] and [Math.round] are exact. What
    follows embeds [formatReadTime] with these roundings in place, for
    finite arguments and for hours below 2^53, where a whole number prints
    as its decimal digits; elsewhere it gives no answer. *)

Module IEEE.

(** The exponent [c] with [2^c <= x < 2^(c+1)], for [0 < x]. *)
Definition floorLog2 (x : Q) : Z :=
  let c := (Z.log2 (Qnum x) - Z.log2 (Zpos (Qden x)))%Z in
  if Qle_bool (2 ^ c)%Q x then c else (c - 1)%Z.

(** The integer nearest to [n], the even one of two that are equally near. *)
Definition roundHalfEven (n : Q) : Z :=
  let f := Qfloor n in
  match (n - inject_Z f ?= 1 # 2)%Q with
  | Lt => f
  | Gt => (f + 1)%Z
  | Eq => if Z.even f then f else (f + 1)%Z
  end.

(** The double nearest to [x], for [0 < x < 2^1024]: a significand of at
    most 53 bits at the exponent of [x], or at the least exponent -1074. *)
Definition nearest (x : Q) : Q :=
  let e := Z.max (floorLog2 x - 52) (-1074) in
  (inject_Z (roundHalfEven (x / 2 ^ e)) * 2 ^ e)%Q.

(** The double that a result [x] is rounded to. *)
Definition toDouble (x : Q) : Q :=
  let x := Qred x in
  match Qnum x with
  | Z0 => 0%Q
  | Zpos _ => nearest x
  | Zneg _ => (- nearest (- x))%Q
  end.

(** [Number.MAX_VALUE] *)
Definition MAX_VALUE : Q := (2 ^ 1024 - 2 ^ 971)%Q.

(** [x] is a finite double. *)
Definition isDouble (x : Q) : bool :=
  (Qeq_bool (toDouble x) x && Qle_bool (Qabs x) MAX_VALUE)%bool.

(** [a / b] and [a * b] on doubles. *)
Definition div (a b : Q) : Q := toDouble (a / b).
Definition mul (a b : Q) : Q := toDouble (a * b).

Definition formatReadTime (minutes : Q) : option string :=
  let hours := Qfloor (div minutes 60) in
  let remainingMinutes := Qfloor (jsRem minutes 60) in
  let seconds := mathRound (mul (jsRem minutes 1) 60) in
  let parts : list string := [] in
  let parts :=
    if (hours >? 0)%Z
    then push parts (showNumber hours ++ " " ++
                     (if (hours =? 1)%Z then "hour" else "hours"))%string
    else parts in
  let parts :=
    if (remainingMinutes >? 0)%Z
    then push parts (showNumber remainingMinutes ++ " " ++
                     (if (remainingMinutes =? 1)%Z
                      then "minute" else "minutes"))%string
    else parts in
  let parts :=
    if ((seconds >? 0)%Z && (hours =? 0)%Z)%bool
    then push parts (showNumber seconds ++ " " ++
                     (if (seconds =? 1)%Z then "second" else "seconds"))%string
    else parts in
  if (isDouble minutes && (Z.abs hours <? 2 ^ 53)%Z)%bool
  then Some (if (0 <? length parts)%nat
             then String.concat ", "%string parts
             else "< 1 second"%string)
  else None.

End IEEE.

(** ** The host and the effects of the program

    The program talks to the host through [Bun.file(path).exists()],
    [Bun.file(path).text()] and [new Bun.Glob(pattern).scan(...)]; it writes
    lines with [console.log] and [console.error], appends to the array
    [results], throws and catches errors, and may leave through
    [process.exit]. *)

Inductive error :=
| FileNotFound (path : string)     (* new Error(`file not found: ${path}`) *)
| HostFailure (message : string).  (* an error raised by the host *)

(** The options object of a call of [glob.scan], with the fields that the
    program sets. *)
Record ScanOptions := {
  cwd : string;
  absolute : bool;
  onlyFiles : bool
}.

Record Host := {
  (* await Bun.file(path).exists() *)
  fileExists : string -> bool;
  (* await Bun.file(path).text(): the content, or the error it rejects with *)
  fileText : string -> error + jsstring;
  (* new Bun.Glob(pattern).scan(options): the paths the iterator yields and
     the error it ends with, if any *)
  globScan : string -> ScanOptions -> list string * option error
}.

Record World := {
  results : list FileStats;
  stdout : list string;
  stderr : list string
}.

Definition emptyWorld : World :=
  {| results := []; stdout := []; stderr := [] |}.

Inductive Outcome (A : Type) :=
| Returned (a : A)
| Thrown (e : error)
| Exited (code : Z).

Arguments Returned {A} a.
Arguments Thrown {A} e.
Arguments Exited {A} code.

Definition IO (A : Type) : Type := World -> Outcome A * World.

Definition ret {A} (a : A) : IO A := fun w => (Returned a, w).

Definition bind {A B} (c : IO A) (k : A -> IO B) : IO B :=
  fun w =>
    match c w with
    | (Returned a, w') => k a w'
    | (Thrown e, w') => (Thrown e, w')
    | (Exited code, w') => (Exited code, w')
    end.

Notation "x <- c ;; k" := (bind c (fun x => k))
  (at level 61, c at next level, right associativity).
Notation "c ;; k" := (bind c (fun _ => k))
  (at level 61, right associativity).

Definition throw {A} (e : error) : IO A := fun w => (Thrown e, w).

(** [process.exit(code)] *)
Definition processExit {A} (code : Z) : IO A := fun w => (Exited code, w).

(** [try { body } catch (err) { handler }]; leaving the process is not an
    exception. *)
Definition tryCatch {A} (body : IO A) (handler : error -> IO A) : IO A :=
  fun w =>
    match body w with
    | (Thrown e, w') => handler e w'
    | r => r
    end.

Definition consoleLog (line : string) : IO unit :=
  fun w => (Returned tt,
            {| results := results w;
               stdout := stdout w ++ [line];
               stderr := stderr w |}).

Definition consoleError (line : string) : IO unit :=
  fun w => (Returned tt,
            {| results := results w;
               stdout := stdout w;
               stderr := stderr w ++ [line] |}).

(** [results.push(stats)] *)
Definition pushResult (stats : FileStats) : IO unit :=
  fun w => (Returned tt,
            {| results := results w ++ [stats];
               stdout := stdout w;
               stderr := stderr w |}).

Definition getResults : IO (list FileStats) :=
  fun w => (Returned (results w), w).

(** [for (const x of xs) body] *)
Fixpoint forOf {A} (xs : list A) (body : A -> IO unit) : IO unit :=
  match xs with
  | [] => ret tt
  | x :: xs' => body x ;; forOf xs' body
  end.

(** [for await (const x of it) body] over an iterator that yields the
    elements of [fst it] and then ends, with the error [snd it] if any. *)
Definition forAwaitOf {A} (it : list A * option error) (body : A -> IO unit)
    : IO unit :=
  forOf (fst it) body ;;
  match snd it with
  | Some e => throw e
  | None => ret tt
  end.

(** The exit status of a run: 0 when the program runs to its end, the
    argument of [process.exit] when it leaves through it, and 1 when an
    error is left uncaught. *)
Definition exitCode {A} (r : Outcome A * World) : Z :=
  match fst r with
  | Returned _ => 0
  | Thrown _ => 1
  | Exited code => code
  end.

Open Scope string_scope.

(** [String(err)] *)
Definition showError (e : error) : string :=
  match e with
  | FileNotFound path => "Error: file not found: " ++ path
  | HostFailure message => message
  end.

(** [chalk.red(`error processing ${path}:`, err)]; the colours of chalk
    are left out: a styled text is the text. *)
Definition errorLine (path : string) (err : error) : string :=
  "error processing " ++ path ++ ":" ++ " " ++ showError err.

Definition newline : string := String (ascii_of_nat 10) "".

Definition GLOB_RECURSIVE : string := "**/*.{txt,md,html,json}".
Definition GLOB_FLAT : string := "*.{txt,md,html,json}".

Close Scope string_scope.

(** ** A file system for the host

    The files and directories of the machine, as a table from absolute
    paths (the list of the names from the root down) to entries, and the
    host functions over it. A path text is followed name by name, each name
    looked up in a directory. [Bun.file(path).exists()] holds of the paths
    that lead to a regular file. [Bun.Glob.scan] lists the entries below
    the directory that [cwd] leads to whose path relative to it matches the
    pattern: regular files, and directories unless [onlyFiles] is set, as
    absolute or as relative paths as [absolute] says; it skips the entries
    with a name starting with a period on the way ([dot] is left at its
    default, false), and fails when [cwd] does not lead to a directory. *)

Inductive Entry :=
| RegularFile (content : error + jsstring)
| Directory.

Definition FileSystem := list (list string * Entry).

Definition samePath (a b : list string) : bool :=
  if list_eq_dec string_dec a b then true else false.

Fixpoint lookupEntry (fs : FileSystem) (p : list string) : option Entry :=
  match fs with
  | [] => None
  | (p', e) :: fs' => if samePath p' p then Some e else lookupEntry fs' p
  end.

Definition SLASH : ascii := "/"%char.

(** The names of a path text: its parts between slashes. *)
Fixpoint splitPath (cur : list ascii) (s : list ascii) : list (list ascii) :=
  match s with
  | [] => [rev cur]
  | c :: s' =>
      if Ascii.eqb c SLASH then rev cur :: splitPath [] s'
      else splitPath (c :: cur) s'
  end.

(** Going down from [base] along the names [names]: the empty name and "."
    stay, ".." goes up. *)
Fixpoint walkNames (base : list string) (names : list string) : list string :=
  match names with
  | [] => base
  | n :: names' =>
      if (String.eqb n ""%string || String.eqb n "."%string)%bool
      then walkNames base names'
      else if String.eqb n ".."%string then walkNames (removelast base) names'
      else walkNames (base ++ [n]) names'
  end.

(** [path.resolve]: the absolute path that a path text stands for, name by
    name and without a look at the file system, in a process whose working
    directory is [base]. *)
Definition resolvePath (base : list string) (p : string) : list string :=
  let names := map string_of_list_ascii (splitPath [] (list_ascii_of_string p)) in
  match list_ascii_of_string p with
  | c :: _ => if Ascii.eqb c SLASH then walkNames [] names else walkNames base names
  | [] => walkNames base names
  end.

(** The text of an absolute path. *)
Definition showPath (p : list string) : string :=
  match p with
  | [] => "/"%string
  | _ :: _ => String.concat ""%string (map (fun n => String SLASH n) p)
  end.

(** The path text of [rel] relative to a directory: its names joined by
    slashes. *)
Fixpoint joinNames (rel : list string) : list ascii :=
  match rel with
  | [] => []
  | [n] => list_ascii_of_string n
  | n :: rel' => list_ascii_of_string n ++ SLASH :: joinNames rel'
  end.

(** *** Glob patterns *)

Inductive GlobToken :=
| GLiteral (c : ascii)
| GStar                              (* [*] *)
| GGlobStar                          (* [**/] *)
| GBraces (alternatives : list (list ascii)).  (* [{a,b,c}] *)

(** The tokens of a pattern; [braces] holds the alternatives read so far
    and the one being read, inside braces. *)
Fixpoint parseGlob (braces : option (list (list ascii) * list ascii))
    (s : list ascii) : list GlobToken :=
  match braces with
  | Some (alts, cur) =>
      match s with
      | [] => []
      | c :: s' =>
          if Ascii.eqb c ","%char then parseGlob (Some (alts ++ [cur], [])) s'
          else if Ascii.eqb c "}"%char
               then GBraces (alts ++ [cur]) :: parseGlob None s'
               else parseGlob (Some (alts, cur ++ [c])) s'
      end
  | None =>
      match s with
      | [] => []
      | "*"%char :: "*"%char :: "/"%char :: s' => GGlobStar :: parseGlob None s'
      | "*"%char :: s' => GStar :: parseGlob None s'
      | "{"%char :: s' => parseGlob (Some ([], [])) s'
      | c :: s' => GLiteral c :: parseGlob None s'
      end
  end.

(** [*]: any run of characters other than the slash, then [k]. *)
Fixpoint matchStar (k : list ascii -> bool) (s : list ascii) : bool :=
  k s ||
  match s with
  | c :: s' => negb (Ascii.eqb c SLASH) && matchStar k s'
  | [] => false
  end.

(** [k] right after some slash of [s]. *)
Fixpoint matchAfterSlash (k : list ascii -> bool) (s : list ascii) : bool :=
  match s with
  | c :: s' => (Ascii.eqb c SLASH && k s') || matchAfterSlash k s'
  | [] => false
  end.

(** [**/]: no directory or any number of them, then [k]. *)
Definition matchGlobStar (k : list ascii -> bool) (s : list ascii) : bool :=
  k s || matchAfterSlash k s.

(** [s] without its prefix [a], when it starts with [a]. *)
Fixpoint stripPrefix {A} (eqb : A -> A -> bool) (a s : list A)
    : option (list A) :=
  match a with
  | [] => Some s
  | x :: a' =>
      match s with
      | y :: s' => if eqb x y then stripPrefix eqb a' s' else None
      | [] => None
      end
  end.

Fixpoint matchTokens (ts : list GlobToken) (s : list ascii) : bool :=
  match ts with
  | [] => match s with [] => true | _ :: _ => false end
  | GLiteral c :: ts' =>
      match s with
      | c' :: s' => Ascii.eqb c c' && matchTokens ts' s'
      | [] => false
      end
  | GStar :: ts' => matchStar (matchTokens ts') s
  | GGlobStar :: ts' => matchGlobStar (matchTokens ts') s
  | GBraces alts :: ts' =>
      existsb (fun a =>
                 match stripPrefix Ascii.eqb a s with
                 | Some s' => matchTokens ts' s'
                 | None => false
                 end) alts
  end.

(** [new Bun.Glob(pattern).match(path)] *)
Definition globMatch (pattern : string) (path : list ascii) : bool :=
  matchTokens (parseGlob None (list_ascii_of_string pattern)) path.

(** An entry name that a scan with [dot: false] looks at. *)
Definition visible (name : string) : bool :=
  match name with
  | String c _ => negb (Ascii.eqb c "."%char)
  | EmptyString => true
  end.

(** *** Paths as the system resolves them *)

(** The root is a directory; any other path is one when the table says
    so. *)
Definition isDirectory (fs : FileSystem) (p : list string) : bool :=
  match p with
  | [] => true
  | _ :: _ =>
      match lookupEntry fs p with
      | Some Directory => true
      | _ => false
      end
  end.

(** One name further from [cur]: the empty name and "." stay, ".." goes
    up. *)
Definition stepName (cur : list string) (n : string) : list string :=
  if (String.eqb n ""%string || String.eqb n "."%string)%bool then cur
  else if String.eqb n ".."%string then removelast cur
  else cur ++ [n].

(** Name by name from [cur]: every name, the empty one after a trailing
    slash too, is looked up in what must be a directory. *)
Fixpoint walkPath (fs : FileSystem) (cur : list string) (names : list string)
    : option (list string) :=
  match names with
  | [] => Some cur
  | n :: names' =>
      if isDirectory fs cur then walkPath fs (stepName cur n) names'
      else None
  end.

(** *** The host functions *)

Section FileSystemHost.

Variable fs : FileSystem.
Variable processCwd : list string.   (* process.cwd() *)

(** The place that a path text leads to, if every step of it can be
    taken. *)
Definition realPath (p : string) : option (list string) :=
  let names := map string_of_list_ascii (splitPath [] (list_ascii_of_string p)) in
  match list_ascii_of_string p with
  | c :: _ =>
      if Ascii.eqb c SLASH then walkPath fs [] names
      else walkPath fs processCwd names
  | [] => walkPath fs processCwd names
  end.

(** The entry that a path text leads to. *)
Definition statPath (p : string) : option Entry :=
  match realPath p with
  | Some [] => Some Directory
  | Some q => lookupEntry fs q
  | None => None
  end.

Definition fsExists (p : string) : bool :=
  match statPath p with
  | Some (RegularFile _) => true
  | _ => false
  end.

Definition fsText (p : string) : error + jsstring :=
  match statPath p with
  | Some (RegularFile content) => content
  | Some Directory =>
      inl (HostFailure ("Error: EISDIR: illegal operation on a directory, read '"
                        ++ p ++ "'")%string)
  | None =>
      inl (HostFailure ("Error: ENOENT: no such file or directory, open '"
                        ++ p ++ "'")%string)
  end.

(** The entry at [entry] as a scan of the directory [dir] for [pattern]
    sees it: an entry below [dir], a regular file or, unless only files are
    asked for, a directory, all names from [dir] down visible and the
    relative path matching; it is yielded as an absolute or as a relative
    path text. *)
Definition scanEntry (pattern : string) (options : ScanOptions)
    (dir : list string) (entry : list string * Entry) : list string :=
  match stripPrefix String.eqb dir (fst entry) with
  | Some (n :: rel) =>
      if ((match snd entry with
           | RegularFile _ => true
           | Directory => negb (onlyFiles options)
           end)
          && forallb visible (n :: rel)
          && globMatch pattern (joinNames (n :: rel)))%bool
      then [if absolute options then showPath (fst entry)
            else string_of_list_ascii (joinNames (n :: rel))]
      else []
  | _ => []
  end.

Definition fsScan (pattern : string) (options : ScanOptions)
    : list string * option error :=
  let failure :=
    ([], Some (HostFailure
                 ("Error: ENOENT: no such file or directory, open '"
                  ++ showPath (resolvePath processCwd (cwd options))
                  ++ "'")%string)) in
  match realPath (cwd options) with
  | Some dir =>
      if isDirectory fs dir
      then (flat_map (scanEntry pattern options dir) fs, None)
      else failure
  | None => failure
  end.

Definition fsHost : Host :=
  {| fileExists := fsExists; fileText := fsText; globScan := fsScan |}.

End FileSystemHost.

Open Scope string_scope.

(** ** The program *)

Section Program.

Variable host : Host.
Variable toLowerCase : jsstring -> jsstring.

(* process a single file *)
Definition processFile (path : string) : IO FileStats :=
  let exists_ := fileExists host path in
  if negb exists_ then throw (FileNotFound path)
  else
    match fileText host path with
    | inl err => throw err
    | inr content =>
        ret {| path := path; metrics := processText toLowerCase content |}
    end.

(** The body of the loop over the arguments. *)
Definition analyzePath (recursive : bool) (path : string) : IO unit :=
  tryCatch
    (if fileExists host path then
       (* handle single file directly *)
       tryCatch
         (stats <- processFile path ;; pushResult stats)
         (fun err => consoleError (errorLine path err))
     else
       (* treat as directory pattern *)
       let glob := if recursive then GLOB_RECURSIVE else GLOB_FLAT in
       forAwaitOf (globScan host glob
                     {| cwd := path; absolute := true; onlyFiles := true |})
         (fun file =>
            tryCatch
              (stats <- processFile file ;; pushResult stats)
              (fun err => consoleError (errorLine file err))))
    (fun err => consoleError (errorLine path err)).

(** The block of one file. *)
Definition printFileStats (many : bool) (r : FileStats) : IO unit :=
  (if many then consoleLog "" else ret tt) ;; (* Add line break between files *)
  consoleLog ("- " ++ path r) ;;
  consoleLog ("  words: " ++ formatNumber (wordCount r)) ;;
  consoleLog ("  characters: " ++ formatNumber (charCount r)) ;;
  consoleLog ("  paragraphs: " ++ formatNumber (paragraphCount r)) ;;
  consoleLog ("  read time: " ++ formatReadTime (inject_Z (readTime r))).

(** [xs.reduce(f, init)] *)
Definition reduce {A B} (xs : list A) (f : B -> A -> B) (init : B) : B :=
  fold_left f xs init.

(** The totals of [results]. *)
Definition totalWords (results : list FileStats) : Z :=
  reduce results (fun sum r => sum + wordCount r)%Z 0%Z.
Definition totalChars (results : list FileStats) : Z :=
  reduce results (fun sum r => sum + charCount r)%Z 0%Z.
Definition totalParas (results : list FileStats) : Z :=
  reduce results (fun sum r => sum + paragraphCount r)%Z 0%Z.
Definition totalTime (results : list FileStats) : Z :=
  reduce results (fun sum r => sum + readTime r)%Z 0%Z.

(** The totals block under the given header line. *)
Definition printTotals (header : string) (results : list FileStats) : IO unit :=
  consoleLog header ;;
  consoleLog ("  files: " ++ formatNumber (Z.of_nat (length results))) ;;
  consoleLog ("  words: " ++ formatNumber (totalWords results)) ;;
  consoleLog ("  characters: " ++ formatNumber (totalChars results)) ;;
  consoleLog ("  paragraphs: " ++ formatNumber (totalParas results)) ;;
  consoleLog ("  total read time: "
              ++ formatReadTime (inject_Z (totalTime results))).

(** The options of the [parseArgs] entry point. *)
Record Options := {
  recursive : bool;
  totalOnly : bool
}.

(** The second half of [processFiles], from the test of an empty [results]
    to its end: the report. *)
Definition report (values : Options) : IO unit :=
  results <- getResults ;;
  (if (length results =? 0)%nat
   then consoleLog "no valid text files found." ;; processExit 0
   else ret tt) ;;
  (* individual file stats *)
  (if negb (totalOnly values)
   then forOf results (printFileStats (1 <? length results)%nat)
   else ret tt) ;;
  (* Only show totals if there are multiple files *)
  if (1 <? length results)%nat
  then printTotals ((if negb (totalOnly values) then newline else "") ++ "totals:")
         results
  else ret tt.

(** [processFiles] of the [parseArgs] entry point: the loop over the
    arguments, then the report. *)
Definition processFiles (values : Options) (files : list string) : IO unit :=
  forOf files (analyzePath (recursive values)) ;;
  report values.

(** The [parseArgs] entry point from the check of the positionals on (the
    help and version texts come before it and end the process). *)
Definition main (values : Options) (files : list string) : IO unit :=
  if (length files =? 0)%nat
  then consoleError "Error: No files specified" ;; processExit 1
  else processFiles values files.

(** The report of the [commander] entry point, [index.ts], which has no
    [totalOnly] option. *)
Definition actionReport : IO unit :=
  results <- getResults ;;
  (if (length results =? 0)%nat
   then consoleLog "no valid text files found." ;; processExit 0
   else ret tt) ;;
  (* individual file stats *)
  forOf results (printFileStats (1 <? length results)%nat) ;;
  (* Only show totals if there are multiple files *)
  if (1 <? length results)%nat
  then printTotals (newline ++ "totals:") results
  else ret tt.

(** The action of the [commander] entry point. *)
Definition action (files : list string) (recursive : bool) : IO unit :=
  forOf files (analyzePath recursive) ;;
  actionReport.

End Program.

(** ** The script of the [parseArgs] entry point

    What runs before [processFiles]: the help text, the version line and
    the positionals. [parseArgs] itself belongs to the host; its results
    [values] and [positionals] are taken as they come. *)

Module Cli.

(** [values] of [parseArgs]; an option that was not given is false. *)
Record Values := {
  recursive : bool;
  help : bool;
  version : bool;
  totalOnly : bool
}.

End Cli.

(** The text that [--help] prints, line by line. *)
Definition HELP_TEXT : string :=
  String.concat newline
    [ "";
      "readlen - calculate reading statistics for text files";
      "";
      "USAGE";
      "  readlen [options] <files...>";
      "";
      "OPTIONS";
      "  -r, --recursive    process directories recursively";
      "  -h, --help         show this help message";
      "  -v, --version      show version number";
      "  -t, --totalOnly    show only totals (default: false)";
      "";
      "EXAMPLES";
      "  readlen file.txt";
      "  readlen *.txt";
      "  readlen dir/ -r";
      "" ].

Section Script.

Variable host : Host.
Variable toLowerCase : jsstring -> jsstring.

(** [packageJson.name], [packageJson.version] and [Bun.version]: the file
    [package.json] is not part of the sources. *)
Variable packageName : string.
Variable packageVersion : string.
Variable bunVersion : string.

Definition script (values : Cli.Values) (positionals : list string)
    : IO unit :=
  (* Handle help *)
  (if Cli.help values
   then consoleLog HELP_TEXT ;; processExit 0
   else ret tt) ;;
  (* handle version *)
  (if Cli.version values
   then consoleLog (packageName ++ " " ++ packageVersion
                    ++ " (bun " ++ bunVersion ++ ")") ;;
        processExit 0
   else ret tt) ;;
  (* get files from positionals (skip first two elements which are bun and
     script paths) *)
  let files := skipn 2 positionals in
  main host toLowerCase
    {| recursive := Cli.recursive values; totalOnly := Cli.totalOnly values |}
    files.

End Script.

Close Scope string_scope.

(** * Definitions of the specification

    What the written specification speaks of, defined on its own terms: the
    statements of the next part compare the program with these. *)

(** ** Words: the pieces between whitespace runs *)

(** The number of maximal runs of non-whitespace code units of [s]: a run is
    counted at its first unit, which is one that is not whitespace and that
    does not continue a run ([inRun] tells whether the unit before was in
    one). *)
Fixpoint countRuns (inRun : bool) (s : jsstring) : nat :=
  match s with
  | [] => 0
  | c :: s' =>
      if isWhiteSpace c then countRuns false s'
      else (if inRun then 0 else 1) + countRuns true s'
  end.

Definition nonWhiteSpaceRuns (s : jsstring) : nat := countRuns false s.

(** The code unit at position [i] of [s] starts a maximal run of
    non-whitespace: it is not whitespace, and it is the first unit of [s] or
    the unit before it is whitespace. *)
Definition isRunStart (s : jsstring) (i : nat) : bool :=
  negb (isWhiteSpace (nth i s 32%N))
  && match i with
     | O => true
     | S j => isWhiteSpace (nth j s 32%N)
     end.

(** The positions at which the maximal non-whitespace runs of [s] start. *)
Definition runStarts (s : jsstring) : list nat :=
  filter (isRunStart s) (seq 0 (length s)).

(** The length of the whitespace run at the head of [s]. *)
Fixpoint whiteSpacePrefix (s : jsstring) : nat :=
  match s with
  | c :: s' => if isWhiteSpace c then S (whiteSpacePrefix s') else 0
  | [] => 0
  end.

(** ** Sample texts *)

(** A text of [n] words: [n] times the letter A followed by a space. *)
Definition wordsText (n : nat) : jsstring :=
  concat (repeat (ofAscii "A ") n).

(** ** Read-time formatting *)

Open Scope string_scope.

(** The number [a mod b] of the specification, for [0 < b]. *)
Definition Qmodulo (a b : Q) : Q := (a - b * inject_Z (Qfloor (a / b)))%Q.

(** "3 hours", "1 hour": the unit in the singular for one, else the plural. *)
Definition unitLabel (c : Z * string) : string :=
  showNumber (fst c) ++ " " ++ snd c ++ (if (fst c =? 1)%Z then "" else "s").

(** The read-time rendering in the words of the specification: the
    components hours, minutes and seconds of [m]; the non-zero ones in that
    order, seconds only when hours is zero, joined by commas; the literal
    when every component is zero. *)
Definition formatReadTimeSpec (m : Q) : string :=
  let hours := Qfloor (m / 60) in
  let minutes := Qfloor (Qmodulo m 60) in
  let seconds := Qfloor (Qmodulo m 1 * 60 + (1 # 2)) in
  if ((hours =? 0)%Z && (minutes =? 0)%Z && (seconds =? 0)%Z)%bool
  then "< 1 second"
  else
    let shown :=
      ([(hours, "hour"); (minutes, "minute")]
         ++ (if (hours =? 0)%Z then [(seconds, "second")] else []))%list in
    String.concat ", "
      (map unitLabel (filter (fun c => negb (fst c =? 0)%Z) shown)).

(** The rendering of given components: the non-zero ones in the order
    hours, minutes, seconds, the seconds only when hours is zero, joined by
    commas; the literal when every component is zero. *)
Definition componentsText (hours minutes seconds : Z) : string :=
  if ((hours =? 0)%Z && (minutes =? 0)%Z && (seconds =? 0)%Z)%bool
  then "< 1 second"
  else
    let shown :=
      ([(hours, "hour"); (minutes, "minute")]
         ++ (if (hours =? 0)%Z then [(seconds, "second")] else []))%list in
    String.concat ", "
      (map unitLabel (filter (fun c => negb (fst c =? 0)%Z) shown)).

(** The read-time rendering with the components as the arithmetic of
    doubles gives them: hours is the floor of the double nearest to
    [m / 60], minutes the floor of [m mod 60], seconds the double nearest to
    [(m mod 1) * 60], rounded to an integer. *)
Definition formatReadTimeDoubleSpec (m : Q) : string :=
  componentsText
    (Qfloor (IEEE.toDouble (m / 60)))
    (Qfloor (Qmodulo m 60))
    (Qfloor (IEEE.toDouble (Qmodulo m 1 * 60) + (1 # 2))).

(** The number that the literal [0.075] denotes, and a whole number of
    minutes above 2^55. *)
Definition minutes_0_075 : Q := IEEE.toDouble (75 # 1000).
Definition minutes_2_55_up : Q := inject_Z (60 * 2 ^ 50 + 56).

Close Scope string_scope.

(** ** The report *)

Open Scope string_scope.

(** The state in which the report starts: the loop over the arguments has
    filled [results] and written to the error stream only. *)
Definition afterAnalysis (rs : list FileStats) (errs : list string) : World :=
  {| results := rs; stdout := []; stderr := errs |}.

(** The sum of a field over the entries of a result list. *)
Definition sumOf (f : FileStats -> Z) (rs : list FileStats) : Z :=
  fold_right Z.add 0%Z (map f rs).

(** The lines of the block of one file. *)
Definition fileBlock (many : bool) (r : FileStats) : list string :=
  List.app
    (if many then [""] else [])
    ["- " ++ path r;
     "  words: " ++ formatNumber (wordCount r);
     "  characters: " ++ formatNumber (charCount r);
     "  paragraphs: " ++ formatNumber (paragraphCount r);
     "  read time: " ++ formatReadTime (inject_Z (readTime r))].

(** The lines of the totals block: the header, the number of files, the
    sums of the counts and the rendering of the sum of the read times. *)
Definition totalsBlock (header : string) (rs : list FileStats) : list string :=
  [header;
   "  files: " ++ formatNumber (Z.of_nat (length rs));
   "  words: " ++ formatNumber (sumOf (fun r => wordCount r) rs);
   "  characters: " ++ formatNumber (sumOf (fun r => charCount r) rs);
   "  paragraphs: " ++ formatNumber (sumOf (fun r => paragraphCount r) rs);
   "  total read time: "
     ++ formatReadTime (inject_Z (sumOf (fun r => readTime r) rs))].

(** The lines of the whole report. *)
Definition reportLines (totalOnly : bool) (rs : list FileStats) : list string :=
  match rs with
  | [] => ["no valid text files found."]
  | _ :: _ =>
      List.app
        (if totalOnly then []
         else concat (map (fileBlock (1 <? length rs)%nat) rs))
        (if (1 <? length rs)%nat
         then totalsBlock ((if totalOnly then "" else newline) ++ "totals:") rs
         else [])
  end.

(** A line is the header of a totals block. *)
Definition isTotalsHeader (line : string) : bool :=
  (String.eqb line "totals:" || String.eqb line (newline ++ "totals:"))%bool.

Definition hasTotalsBlock (out : list string) : bool :=
  existsb isTotalsHeader out.

Close Scope string_scope.

(** What a command that only prints does to the state. *)
Definition prints (c : IO unit) (lines : list string) : Prop :=
  forall w,
    c w = (Returned tt,
           {| results := results w;
              stdout := stdout w ++ lines;
              stderr := stderr w |}).

(** ** The loop over the arguments *)

Section Analysis.

Variable host : Host.
Variable toLowerCase : jsstring -> jsstring.

(** What [processFile] comes to for a path: the error it throws or the
    statistics it returns. *)
Definition analysisOf (file : string) : error + FileStats :=
  if fileExists host file then
    match fileText host file with
    | inl err => inl err
    | inr content =>
        inr {| path := file; metrics := processText toLowerCase content |}
    end
  else inl (FileNotFound file).

(** The paths that the loop hands to [processFile] for one argument, and
    the error that ends their enumeration, if any. *)
Definition candidates (recursive : bool) (arg : string)
    : list string * option error :=
  if fileExists host arg then ([arg], None)
  else globScan host (if recursive then GLOB_RECURSIVE else GLOB_FLAT)
         {| cwd := arg; absolute := true; onlyFiles := true |}.

(** The entries that a list of paths adds to the result list. *)
Definition kept (files : list string) : list FileStats :=
  flat_map (fun f => match analysisOf f with
                     | inr stats => [stats]
                     | inl _ => []
                     end) files.

(** The error lines that a list of paths adds to the error stream. *)
Definition complaints (files : list string) : list string :=
  flat_map (fun f => match analysisOf f with
                     | inr _ => []
                     | inl err => [errorLine f err]
                     end) files.

Definition argResults (recursive : bool) (arg : string) : list FileStats :=
  kept (fst (candidates recursive arg)).

Definition argErrors (recursive : bool) (arg : string) : list string :=
  complaints (fst (candidates recursive arg))
  ++ match snd (candidates recursive arg) with
     | Some err => [errorLine arg err]
     | None => []
     end.

(** An argument fails with [err]: it names a file that cannot be read, or
    it is no file and cannot be listed either (it does not exist, say). *)
Definition argFails (recursive : bool) (arg : string) (err : error) : Prop :=
  (fileExists host arg = true /\ fileText host arg = inl err)
  \/ (fileExists host arg = false
      /\ globScan host (if recursive then GLOB_RECURSIVE else GLOB_FLAT)
           {| cwd := arg; absolute := true; onlyFiles := true |}
         = ([], Some err)).

(** A command that returns after adding entries and error lines. *)
Definition collects (c : IO unit) (rs : list FileStats) (errs : list string)
    : Prop :=
  forall w,
    c w = (Returned tt,
           {| results := results w ++ rs;
              stdout := stdout w;
              stderr := stderr w ++ errs |}).

End Analysis.

(** ** A sample machine *)

Open Scope string_scope.

(** A small machine: a home directory with documents in it. *)
Definition exampleFs : FileSystem :=
  [ (["home"], Directory);
    (["home"; "docs"], Directory);
    (["home"; "docs"; "a.txt"], RegularFile (inr (ofAscii "Hello world")));
    (["home"; "docs"; "b.md"], RegularFile (inr (ofAscii "One")));
    (["home"; "docs"; "c.png"], RegularFile (inr (ofAscii "png")));
    (["home"; "docs"; ".hidden.txt"], RegularFile (inr (ofAscii "h")));
    (["home"; "docs"; "sub"], Directory);
    (["home"; "docs"; "sub"; "d.json"], RegularFile (inr (ofAscii "{}")));
    (["home"; "docs"; "sub"; "e.html.bak"], RegularFile (inr (ofAscii "x")));
    (["home"; "notes.csv"], RegularFile (inr (ofAscii "a,b c")));
    (["home"; "locked.txt"],
     RegularFile (inl (HostFailure "EACCES: permission denied")))
  ].

Definition exampleHost : Host := fsHost exampleFs ["home"].

Close Scope string_scope.

(** ** Paragraphs: the pieces between blank-line boundaries *)

(** Whitespace up to a closing newline. *)
Fixpoint endsBlank (rest : jsstring) : bool :=
  match rest with
  | [] => false
  | c :: rest' =>
      match rest' with
      | [] => isNewline c
      | _ :: _ => isWhiteSpace c && endsBlank rest'
      end
  end.

(** A blank-line boundary: a newline, whitespace only (possibly none), and
    another newline. *)
Definition isBlankLineBoundary (u : jsstring) : bool :=
  match u with
  | c :: rest => isNewline c && endsBlank rest
  | [] => false
  end.

(** The segments of a text split on the separators [sep]: each separator is
    the leftmost one (none starts inside the segment before it) and the
    longest one at its place, and the last segment holds none. *)
Inductive SplitOn (sep : jsstring -> bool) : jsstring -> list jsstring -> Prop :=
| SplitOn_last (u : jsstring) :
    (forall i n, i < length u -> sep (firstn n (skipn i u)) = false) ->
    SplitOn sep u [u]
| SplitOn_cons (u b rest : jsstring) (segs : list jsstring) :
    sep b = true ->
    (forall i n, i < length u ->
                 sep (firstn n (skipn i (u ++ b ++ rest))) = false) ->
    (forall n, 0 < n <= length rest -> sep (b ++ firstn n rest) = false) ->
    SplitOn sep rest segs ->
    SplitOn sep (u ++ b ++ rest) (u :: segs).

(** ** The resolver: files given directly and directory listings *)

(** The extensions of the two patterns. *)
Definition ALLOWED_EXTENSIONS : list (list ascii) :=
  map list_ascii_of_string ["txt"; "md"; "html"; "json"]%string.

(** A file name that ends in a period and one of the extensions. *)
Definition HasAllowedExtension (name : list ascii) : Prop :=
  exists stem ext,
    In ext ALLOWED_EXTENSIONS /\ name = stem ++ "."%char :: ext.

Definition noSlash (s : list ascii) : bool :=
  forallb (fun c => negb (Ascii.eqb c SLASH)) s.

(** No name of the table has a slash in it. *)
Definition wellNamed (fs : FileSystem) : bool :=
  forallb (fun entry => forallb (fun n => noSlash (list_ascii_of_string n))
                          (fst entry)) fs.

(** The names that [*.{txt,md,html,json}] matches. *)
Definition FlatMatch (s : list ascii) : Prop :=
  exists stem ext,
    noSlash stem = true /\ In ext ALLOWED_EXTENSIONS
    /\ s = stem ++ "."%char :: ext.

(** ** Further notions *)

(** A whitespace run: one or more code units, all of them whitespace. *)
Definition isWhiteSpaceRun (u : jsstring) : bool :=
  truthy u && forallb isWhiteSpace u.

Definition notWhiteSpace (c : codeUnit) : bool := negb (isWhiteSpace c).

(** The paths that a report lists: the rest of each line that starts with
    a hyphen and a space. *)
Definition listedPaths (out : list string) : list string :=
  flat_map (fun line =>
              match line with
              | String "-"%char (String " "%char p) => [p]
              | _ => []
              end) out.

Definition COMMA : ascii := ","%char.

Definition isDigit (c : ascii) : bool :=
  (48 <=? nat_of_ascii c) && (nat_of_ascii c <=? 57).

(** The error of each argument, for a list of arguments that all fail. *)
Definition allFail (host : Host) (recursive : bool)
    (args : list string) (errs : list error) : Prop :=
  Forall2 (argFails host recursive) args errs.

(** The error lines of a list of arguments that fail with the given
    errors. *)
Fixpoint errorLines (args : list string) (errs : list error) : list string :=
  match args, errs with
  | arg :: args', err :: errs' => errorLine arg err :: errorLines args' errs'
  | _, _ => []
  end.

(** * Properties *)

(** ** The split loop *)

Lemma splitLoop_step (re : regex) (s : jsstring) (p q : nat) :
  splitLoop re s p q =
  if lt_dec q (length s) then
    match matchHere re (skipn q s) with
    | None => splitLoop re s p (S q)
    | Some n =>
        let e := Nat.min (q + n) (length s) in
        if Nat.eq_dec e p then splitLoop re s p (S q)
        else substring s p q :: splitLoop re s e e
    end
  else [substring s p (length s)].
Proof.
  rewrite splitLoop_equation_1.
  destruct (lt_dec q (length s)) as [Hq|Hq].
  - rewrite splitLoop_clause_1_equation_1.
    destruct (matchHere re (skipn q s)) as [n|].
    + rewrite splitLoop_clause_1_clause_2_equation_1. cbv zeta.
      destruct (Nat.eq_dec (Nat.min (q + n) (length s)) p).
      * now rewrite splitLoop_clause_1_clause_2_clause_2_equation_1.
      * now rewrite splitLoop_clause_1_clause_2_clause_2_equation_2.
    + now rewrite splitLoop_clause_1_clause_2_equation_2.
  - now rewrite splitLoop_clause_1_equation_2.
Qed.

(** ** Words: the pieces between whitespace runs *)

Lemma greedy_whiteSpace (s : jsstring) :
  greedy isWhiteSpace (fun _ => Some 0) s = Some (whiteSpacePrefix s).
Proof.
  induction s as [|c s IH]; simpl; [reflexivity|].
  destruct (isWhiteSpace c); [|reflexivity].
  now rewrite IH.
Qed.

Lemma matchHere_whiteSpaceRun (s : jsstring) :
  matchHere reWhiteSpaceRun s =
  match s with
  | c :: s' => if isWhiteSpace c then Some (S (whiteSpacePrefix s')) else None
  | [] => None
  end.
Proof.
  destruct s as [|c s]; simpl; [reflexivity|].
  destruct (isWhiteSpace c); [|reflexivity].
  now rewrite greedy_whiteSpace.
Qed.

Lemma whiteSpacePrefix_le (s : jsstring) : whiteSpacePrefix s <= length s.
Proof.
  induction s as [|c s IH]; simpl; [lia|].
  destruct (isWhiteSpace c); simpl; lia.
Qed.

Lemma countRuns_skip_whiteSpace (s : jsstring) :
  countRuns false (skipn (whiteSpacePrefix s) s) = countRuns false s.
Proof.
  induction s as [|c s IH]; simpl; [reflexivity|].
  destruct (isWhiteSpace c) eqn:Hc; simpl; [exact IH|].
  now rewrite Hc.
Qed.

Lemma skipn_cons_inv {A} (q : nat) (s : list A) (c : A) (r : list A) :
  skipn q s = c :: r -> skipn (S q) s = r /\ q < length s.
Proof.
  revert s; induction q as [|q IH]; intros [|x s] H; simpl in *;
    try discriminate.
  - inversion H; subst. split; [reflexivity | lia].
  - destruct (IH _ H) as [H1 H2]. split; [exact H1 | lia].
Qed.

Lemma substring_truthy (s : jsstring) (p q : nat) :
  p <= q <= length s -> truthy (substring s p q) = (p <? q).
Proof.
  intros Hpq. unfold substring.
  destruct (p <? q) eqn:Hlt.
  - apply Nat.ltb_lt in Hlt.
    assert (Hlen : length (firstn (q - p) (skipn p s)) = q - p).
    { rewrite firstn_length_le; [reflexivity|]. rewrite length_skipn. lia. }
    destruct (firstn (q - p) (skipn p s)); simpl in *; [lia | reflexivity].
  - apply Nat.ltb_ge in Hlt. replace (q - p) with 0 by lia. reflexivity.
Qed.

Lemma splitLoop_whiteSpace_count (k : nat) :
  forall (s : jsstring) (p q : nat),
    length s - q <= k -> p <= q <= length s ->
    length (filter truthy (splitLoop reWhiteSpaceRun s p q)) =
    (if p <? q then 1 else 0) + countRuns (p <? q) (skipn q s).
Proof.
  induction k as [|k IH]; intros s p q Hk Hpq; rewrite splitLoop_step.
  - destruct (lt_dec q (length s)) as [Hq|Hq]; [lia|].
    assert (q = length s) by lia; subst q.
    rewrite skipn_all. simpl. rewrite substring_truthy by lia.
    destruct (p <? length s); reflexivity.
  - destruct (lt_dec q (length s)) as [Hq|Hq].
    + rewrite matchHere_whiteSpaceRun.
      destruct (skipn q s) as [|c r] eqn:Hs.
      { apply (f_equal (@length _)) in Hs. rewrite length_skipn in Hs.
        simpl in Hs. lia. }
      destruct (skipn_cons_inv _ _ Hs) as [Hr _].
      destruct (isWhiteSpace c) eqn:Hc.
      * cbv zeta.
        pose proof (whiteSpacePrefix_le r) as Hle.
        assert (Hlen : length r = length s - S q)
          by (rewrite <- Hr; apply length_skipn).
        rewrite Nat.min_l by lia.
        destruct (Nat.eq_dec (q + S (whiteSpacePrefix r)) p) as [He|He]; [lia|].
        assert (Hrest :
          length (filter truthy
                    (splitLoop reWhiteSpaceRun s (q + S (whiteSpacePrefix r))
                       (q + S (whiteSpacePrefix r)))) = countRuns false r).
        { rewrite IH by lia. rewrite Nat.ltb_irrefl.
          replace (q + S (whiteSpacePrefix r))
            with (whiteSpacePrefix r + S q) by lia.
          now rewrite <- skipn_skipn, Hr, countRuns_skip_whiteSpace. }
        cbn [filter]. rewrite substring_truthy by lia.
        cbn [countRuns]. rewrite Hc.
        destruct (p <? q); cbn [length]; rewrite Hrest; reflexivity.
      * rewrite IH by lia. rewrite Hr. cbn [countRuns]. rewrite Hc.
        replace (p <? S q) with true by (symmetry; apply Nat.ltb_lt; lia).
        destruct (p <? q); reflexivity.
    + assert (q = length s) by lia; subst q.
      rewrite skipn_all. simpl. rewrite substring_truthy by lia.
      destruct (p <? length s); reflexivity.
Qed.

Lemma split_whiteSpace_count (s : jsstring) :
  length (filter truthy (split reWhiteSpaceRun s)) = nonWhiteSpaceRuns s.
Proof.
  destruct s as [|c s]; [reflexivity|].
  unfold split.
  now rewrite (splitLoop_whiteSpace_count (k := length (c :: s))) by (simpl; lia).
Qed.

Lemma countRuns_whiteSpace (b : bool) (s : jsstring) :
  forallb isWhiteSpace s = true -> countRuns b s = 0.
Proof.
  revert b; induction s as [|c s IH]; intros b; simpl; [reflexivity|].
  destruct (isWhiteSpace c); simpl; [apply IH | discriminate].
Qed.

(** ** The lower-casing of the letters A-Z *)

Lemma asciiLowerUnit_idempotent (c : codeUnit) :
  asciiLowerUnit (asciiLowerUnit c) = asciiLowerUnit c.
Proof.
  unfold asciiLowerUnit.
  destruct ((65 <=? c) && (c <=? 90))%N eqn:H; [|now rewrite H].
  apply andb_true_iff in H. destruct H as [H1 H2].
  apply N.leb_le in H1, H2.
  replace (c + 32 <=? 90)%N with false by (symmetry; apply N.leb_gt; lia).
  now rewrite andb_false_r.
Qed.

Lemma asciiToLowerCase_idempotent (s : jsstring) :
  asciiToLowerCase (asciiToLowerCase s) = asciiToLowerCase s.
Proof.
  unfold asciiToLowerCase. rewrite map_map.
  apply map_ext. exact asciiLowerUnit_idempotent.
Qed.

Lemma asciiLowerUnit_whiteSpace (c : codeUnit) :
  isWhiteSpace c = true -> asciiLowerUnit c = c.
Proof.
  unfold asciiLowerUnit. intros Hc.
  destruct ((65 <=? c) && (c <=? 90))%N eqn:H; [|reflexivity].
  apply andb_true_iff in H. destruct H as [H1 H2].
  apply N.leb_le in H1, H2.
  unfold isWhiteSpace in Hc.
  repeat (apply orb_true_iff in Hc; destruct Hc as [Hc|Hc]);
    try (apply andb_true_iff in Hc; destruct Hc as [Hc1 Hc2];
         apply N.leb_le in Hc1, Hc2; lia);
    apply N.eqb_eq in Hc; lia.
Qed.

Lemma asciiToLowerCase_whiteSpace (s : jsstring) :
  forallb isWhiteSpace s = true -> asciiToLowerCase s = s.
Proof.
  induction s as [|c s IH]; simpl; [reflexivity|].
  intros H. apply andb_true_iff in H. destruct H as [Hc Hs].
  now rewrite asciiLowerUnit_whiteSpace, IH.
Qed.

(** ** Reading time *)

Lemma ceiling_quotient (n : Z) :
  Qceiling (inject_Z n / inject_Z SILENT_READING_WPM) = (- ((- n) / 238))%Z.
Proof.
  unfold Qceiling, Qfloor, Qdiv, Qmult, Qinv, Qopp, inject_Z,
    SILENT_READING_WPM; simpl.
  now rewrite Z.mul_1_r.
Qed.

Lemma processText_readTime_eq (toLowerCase : jsstring -> jsstring) (t : jsstring) :
  readTime (processText toLowerCase t) =
  (- ((- wordCount (processText toLowerCase t)) / 238))%Z.
Proof. unfold processText; cbn [readTime wordCount]. apply ceiling_quotient. Qed.

Lemma processText_wordCount_nonneg (toLowerCase : jsstring -> jsstring) (t : jsstring) :
  (0 <= wordCount (processText toLowerCase t))%Z.
Proof. unfold processText; cbn [wordCount]. lia. Qed.

Lemma wordsText_count (n : nat) :
  forall b, countRuns b (asciiToLowerCase (wordsText n)) =
            match n with 0 => 0 | S m => (if b then 0 else 1) + m end.
Proof.
  induction n as [|n IH]; intros b; [reflexivity|].
  change (asciiToLowerCase (wordsText (S n)))
    with (97%N :: 32%N :: asciiToLowerCase (wordsText n)).
  cbn [countRuns].
  change (isWhiteSpace 97%N) with false. change (isWhiteSpace 32%N) with true.
  cbn iota. rewrite IH. destruct n; lia.
Qed.

(** C1: [processText] returns [readTime = ceiling (wordCount / 238)]: the
    least integer [m] with [wordCount <= 238 * m]. It is a non-negative
    integer, and it is 0 exactly when [wordCount] is 0. A text of 238 words
    gives 1, a text of 239 words gives 2, and the empty text of no word
    gives 0. *)
Theorem processText_readTime :
  forall (toLowerCase : jsstring -> jsstring) (t : jsstring),
    let m := processText toLowerCase t in
    readTime m = Qceiling (inject_Z (wordCount m) / 238)
    /\ (wordCount m <= 238 * readTime m)%Z
    /\ (forall k : Z, wordCount m <= 238 * k -> readTime m <= k)%Z
    /\ (0 <= readTime m)%Z
    /\ (readTime m = 0%Z <-> wordCount m = 0%Z)
    /\ (wordCount m = 238%Z -> readTime m = 1%Z)
    /\ (wordCount m = 239%Z -> readTime m = 2%Z)
    /\ (wordCount m = 0%Z -> readTime m = 0%Z)
    /\ (let m238 := processText asciiToLowerCase (wordsText 238) in
        wordCount m238 = 238%Z /\ readTime m238 = 1%Z)
    /\ (let m239 := processText asciiToLowerCase (wordsText 239) in
        wordCount m239 = 239%Z /\ readTime m239 = 2%Z)
    /\ (let m0 := processText asciiToLowerCase [] in
        wordCount m0 = 0%Z /\ readTime m0 = 0%Z).
Proof.
  intros lower t m.
  pose proof (processText_readTime_eq lower t) as Hr.
  pose proof (processText_wordCount_nonneg lower t) as Hw.
  fold m in Hr, Hw.
  assert (Hc : forall n, wordCount (processText asciiToLowerCase (wordsText n))
                         = Z.of_nat n).
  { intros n. unfold processText; cbn [wordCount].
    rewrite split_whiteSpace_count. unfold nonWhiteSpaceRuns.
    rewrite wordsText_count. destruct n; lia. }
  split; [reflexivity|].
  do 7 (split; [rewrite Hr; Z.to_euclidean_division_equations; lia|]).
  cbv zeta. rewrite !processText_readTime_eq, (Hc 238), (Hc 239).
  repeat split.
Qed.

Lemma filter_map_length {A B} (f : B -> bool) (g : A -> B) (l : list A) :
  length (filter f (map g l)) = length (filter (fun x => f (g x)) l).
Proof.
  induction l as [|x l IH]; simpl; [reflexivity|].
  destruct (f (g x)); simpl; now rewrite IH.
Qed.

Lemma countRuns_positions (inRun : bool) (s : jsstring) :
  countRuns inRun s
  = length (filter (fun i => negb (isWhiteSpace (nth i s 32%N))
                             && match i with
                                | O => negb inRun
                                | S j => isWhiteSpace (nth j s 32%N)
                                end)
              (seq 0 (length s))).
Proof.
  revert inRun. induction s as [|c s IH]; intros inRun; [reflexivity|].
  cbn [length seq]. rewrite <- seq_shift. cbn [filter nth countRuns].
  assert (Hrest : forall b,
            b = negb (isWhiteSpace c) ->
            countRuns b s
            = length (filter
                        (fun i => negb (isWhiteSpace (nth i (c :: s) 32%N))
                                  && match i with
                                     | O => negb inRun
                                     | S j => isWhiteSpace (nth j (c :: s) 32%N)
                                     end)
                        (map S (seq 0 (length s))))).
  { intros b ->. rewrite filter_map_length, IH. f_equal.
    apply filter_ext. intros [|j]; cbn [nth]; [|reflexivity].
    now rewrite negb_involutive. }
  destruct (isWhiteSpace c) eqn:Hc; cbn [negb andb].
  - now apply Hrest.
  - rewrite (Hrest true eq_refl). destruct inRun; reflexivity.
Qed.

Lemma nonWhiteSpaceRuns_positions (s : jsstring) :
  nonWhiteSpaceRuns s = length (runStarts s).
Proof. unfold nonWhiteSpaceRuns. now rewrite countRuns_positions. Qed.

(** C2: the [wordCount] of [processText] is the number of maximal
    non-whitespace runs of the lower-cased text; an empty or all-whitespace
    text has [wordCount = 0] (lower-casing leaves whitespace as it is). *)
Theorem processText_wordCount :
  forall (toLowerCase : jsstring -> jsstring) (t : jsstring),
    wordCount (processText toLowerCase t)
      = Z.of_nat (nonWhiteSpaceRuns (toLowerCase t))
    /\ wordCount (processText toLowerCase t)
       = Z.of_nat (length (runStarts (toLowerCase t)))
    /\ ((forall s, forallb isWhiteSpace s = true -> toLowerCase s = s) ->
        forallb isWhiteSpace t = true ->
        wordCount (processText toLowerCase t) = 0%Z).
Proof.
  intros lower t.
  assert (H : wordCount (processText lower t)
              = Z.of_nat (nonWhiteSpaceRuns (lower t))).
  { unfold processText; cbn [wordCount]. now rewrite split_whiteSpace_count. }
  split; [exact H|].
  split; [now rewrite H, nonWhiteSpaceRuns_positions|].
  intros Hlower Hws. rewrite H, (Hlower _ Hws).
  unfold nonWhiteSpaceRuns. now rewrite countRuns_whiteSpace.
Qed.

Lemma processText_wordCount_witness :
  wordCount (processText asciiToLowerCase (ofAscii "Hello   world  Foo")) = 3%Z
  /\ wordCount (processText asciiToLowerCase (ofAscii "   ")) = 0%Z
  /\ wordCount (processText asciiToLowerCase []) = 0%Z.
Proof.
  split; [|split].
  - exact (proj1 (processText_wordCount asciiToLowerCase
                    (ofAscii "Hello   world  Foo"))).
  - exact (proj2 (proj2 (processText_wordCount asciiToLowerCase (ofAscii "   ")))
             asciiToLowerCase_whiteSpace eq_refl).
  - exact (proj2 (proj2 (processText_wordCount asciiToLowerCase []))
             asciiToLowerCase_whiteSpace eq_refl).
Defined.

(** C9: [processText] is idempotent on its normalization: on a text whose
    lower-cased form is a fixed point of lower-casing, the metrics of the
    lower-cased form are those of the text, field by field. *)
Theorem processText_normalized :
  forall (toLowerCase : jsstring -> jsstring) (t : jsstring),
    toLowerCase (toLowerCase t) = toLowerCase t ->
    processText toLowerCase (toLowerCase t) = processText toLowerCase t
    /\ wordCount (processText toLowerCase (toLowerCase t))
       = wordCount (processText toLowerCase t)
    /\ charCount (processText toLowerCase (toLowerCase t))
       = charCount (processText toLowerCase t)
    /\ paragraphCount (processText toLowerCase (toLowerCase t))
       = paragraphCount (processText toLowerCase t)
    /\ readTime (processText toLowerCase (toLowerCase t))
       = readTime (processText toLowerCase t).
Proof.
  intros lower t Hidem.
  assert (H : processText lower (lower t) = processText lower t)
    by (unfold processText; now rewrite Hidem).
  now rewrite H.
Qed.

Lemma processText_normalized_witness :
  processText asciiToLowerCase (asciiToLowerCase (ofAscii "Hello World"))
  = processText asciiToLowerCase (ofAscii "Hello World").
Proof.
  exact (proj1 (processText_normalized asciiToLowerCase (ofAscii "Hello World")
                  (asciiToLowerCase_idempotent _))).
Defined.

(** ** Read-time formatting *)

Lemma jsRem_nonneg (a b : Q) :
  (0 <= a)%Q -> (0 < b)%Q -> jsRem a b = Qmodulo a b.
Proof.
  intros Ha Hb. unfold jsRem, Qmodulo, Qtruncate.
  assert (H : (0 <= a / b)%Q).
  { unfold Qdiv. apply Qmult_le_0_compat; [exact Ha|].
    apply Qlt_le_weak, Qinv_lt_0_compat, Hb. }
  apply Qle_bool_iff in H. now rewrite H.
Qed.

Lemma Qmodulo_nonneg (a b : Q) : (0 < b)%Q -> (0 <= Qmodulo a b)%Q.
Proof.
  intros Hb. unfold Qmodulo.
  pose proof (Qfloor_le (a / b)) as Hf.
  assert (H : (b * inject_Z (Qfloor (a / b)) <= b * (a / b))%Q).
  { rewrite !(Qmult_comm b). apply Qmult_le_compat_r; [exact Hf|].
    apply Qlt_le_weak, Hb. }
  rewrite Qmult_div_r in H by (intros E; rewrite E in Hb; inversion Hb).
  apply (Qplus_le_l _ _ (b * inject_Z (Qfloor (a / b)))).
  ring_simplify. exact H.
Qed.

Lemma Qfloor_nonneg (x : Q) : (0 <= x)%Q -> (0 <= Qfloor x)%Z.
Proof. intros H. change 0%Z with (Qfloor 0). now apply Qfloor_resp_le. Qed.

Lemma unitLabel_eq (n : Z) (one : string) :
  unitLabel (n, one)
  = (showNumber n ++ " " ++ (if (n =? 1)%Z then one else one ++ "s"))%string.
Proof.
  unfold unitLabel; cbn [fst snd].
  destruct (n =? 1)%Z; [|reflexivity].
  f_equal. f_equal. induction one as [|a one IH]; simpl; [reflexivity|].
  now rewrite IH.
Qed.

Lemma formatReadTime_refines (m : Q) :
  (0 <= m)%Q -> formatReadTime m = formatReadTimeSpec m.
Proof.
  intros Hm. unfold formatReadTime, formatReadTimeSpec, mathRound.
  rewrite !jsRem_nonneg by (exact Hm || reflexivity).
  assert (Hh : (0 <= Qfloor (m / 60))%Z).
  { apply Qfloor_nonneg. unfold Qdiv.
    apply Qmult_le_0_compat; [exact Hm | discriminate]. }
  assert (Hmi : (0 <= Qfloor (Qmodulo m 60))%Z)
    by (apply Qfloor_nonneg, Qmodulo_nonneg; reflexivity).
  assert (Hs : (0 <= Qfloor (Qmodulo m 1 * 60 + (1 # 2)))%Z).
  { apply Qfloor_nonneg.
    pose proof (@Qmodulo_nonneg m 1 eq_refl) as H.
    apply (Qle_trans _ (0 * 60 + (1 # 2))); [discriminate|].
    apply Qplus_le_l, Qmult_le_compat_r; [exact H | discriminate]. }
  generalize dependent (Qfloor (Qmodulo m 1 * 60 + (1 # 2))).
  generalize dependent (Qfloor (Qmodulo m 60)).
  generalize dependent (Qfloor (m / 60)).
  intros h Hh mi Hmi s Hs. cbv zeta.
  rewrite !Z.gtb_ltb.
  destruct (Z.eqb_spec h 0) as [Eh|Eh], (Z.eqb_spec mi 0) as [Emi|Emi],
    (Z.eqb_spec s 0) as [Es|Es]; subst;
    repeat match goal with
      | |- context [(0 <? ?x)%Z] =>
          destruct (Z.ltb_spec 0 x); try lia
      end;
    cbn [andb negb fst snd push app length Nat.ltb Nat.leb filter map
         Z.eqb String.concat];
    rewrite ?unitLabel_eq;
    repeat match goal with
      | |- context [(?x =? 0)%Z] =>
          destruct (Z.eqb_spec x 0); [lia|]
      end;
    cbn [andb negb fst snd push app length Nat.ltb Nat.leb filter map
         Z.eqb String.concat];
    rewrite ?unitLabel_eq;
    reflexivity.
Qed.

(** The exact components are not the ones of the program everywhere: at
    the double 0.075 the product [(m mod 1) * 60] is rounded up to 4.5 and
    the program prints 5 seconds where [round (0.075 * 60)] is 4, and at
    60 * 2^50 + 56 minutes the quotient is rounded up to the next whole
    number of hours. *)
Lemma exact_components_differ :
  IEEE.isDouble minutes_0_075 = true
  /\ (0 <= minutes_0_075)%Q
  /\ IEEE.formatReadTime minutes_0_075 = Some "5 seconds"%string
  /\ formatReadTimeSpec minutes_0_075 = "4 seconds"%string
  /\ IEEE.formatReadTime minutes_0_075
     <> Some (formatReadTimeSpec minutes_0_075)
  /\ IEEE.isDouble minutes_2_55_up = true
  /\ IEEE.formatReadTime minutes_2_55_up
     = Some "1125899906842625 hours, 56 minutes"%string
  /\ formatReadTimeSpec minutes_2_55_up
     = "1125899906842624 hours, 56 minutes"%string.
Proof.
  split; [|split; [|split; [|split; [|split; [|split; [|split]]]]]];
    try (vm_compute; reflexivity).
  - vm_compute. discriminate.
  - vm_compute. discriminate.
Qed.

Lemma componentsText_parts (h mi s : Z) :
  (0 <= h)%Z -> (0 <= mi)%Z -> (0 <= s)%Z ->
  (let parts : list string := [] in
   let parts :=
     if (h >? 0)%Z
     then push parts (showNumber h ++ " " ++
                      (if (h =? 1)%Z then "hour" else "hours"))%string
     else parts in
   let parts :=
     if (mi >? 0)%Z
     then push parts (showNumber mi ++ " " ++
                      (if (mi =? 1)%Z then "minute" else "minutes"))%string
     else parts in
   let parts :=
     if ((s >? 0)%Z && (h =? 0)%Z)%bool
     then push parts (showNumber s ++ " " ++
                      (if (s =? 1)%Z then "second" else "seconds"))%string
     else parts in
   if (0 <? length parts)%nat then String.concat ", " parts
   else "< 1 second"%string)
  = componentsText h mi s.
Proof.
  intros Hh Hmi Hs. unfold componentsText. cbv zeta.
  rewrite !Z.gtb_ltb.
  destruct (Z.eqb_spec h 0) as [Eh|Eh], (Z.eqb_spec mi 0) as [Emi|Emi],
    (Z.eqb_spec s 0) as [Es|Es]; subst;
    repeat match goal with
      | |- context [(0 <? ?x)%Z] =>
          destruct (Z.ltb_spec 0 x); try lia
      end;
    cbn [andb negb fst snd push app length Nat.ltb Nat.leb filter map
         Z.eqb String.concat];
    rewrite ?unitLabel_eq;
    repeat match goal with
      | |- context [(?x =? 0)%Z] =>
          destruct (Z.eqb_spec x 0); [lia|]
      end;
    cbn [andb negb fst snd push app length Nat.ltb Nat.leb filter map
         Z.eqb String.concat];
    rewrite ?unitLabel_eq;
    reflexivity.
Qed.

Lemma roundHalfEven_nonneg (n : Q) :
  (0 <= n)%Q -> (0 <= IEEE.roundHalfEven n)%Z.
Proof.
  intros H. unfold IEEE.roundHalfEven.
  pose proof (Qfloor_nonneg H) as Hf.
  destruct (n - inject_Z (Qfloor n) ?= 1 # 2)%Q;
    [destruct (Z.even (Qfloor n))|..]; lia.
Qed.

Lemma Qpower_2_pos (e : Z) : (0 < 2 ^ e)%Q.
Proof. now apply Qpower_0_lt. Qed.

Lemma nearest_nonneg (x : Q) : (0 <= x)%Q -> (0 <= IEEE.nearest x)%Q.
Proof.
  intros H. unfold IEEE.nearest.
  set (e := Z.max (IEEE.floorLog2 x - 52) (-1074)).
  apply Qmult_le_0_compat.
  - change 0%Q with (inject_Z 0). rewrite <- Zle_Qle.
    apply roundHalfEven_nonneg. unfold Qdiv.
    apply Qmult_le_0_compat; [exact H|].
    apply Qinv_le_0_compat, Qlt_le_weak, Qpower_2_pos.
  - apply Qlt_le_weak, Qpower_2_pos.
Qed.

Lemma toDouble_nonneg (x : Q) : (0 <= x)%Q -> (0 <= IEEE.toDouble x)%Q.
Proof.
  intros H. unfold IEEE.toDouble.
  pose proof (Qred_correct x) as Hred.
  destruct (Qnum (Qred x)) eqn:E.
  - apply Qle_refl.
  - apply nearest_nonneg. now rewrite Hred.
  - exfalso. rewrite <- Hred in H. unfold Qle in H. rewrite E in H.
    cbn in H. lia.
Qed.

Lemma formatReadTime_double_refines (m : Q) :
  IEEE.isDouble m = true -> (0 <= m)%Q ->
  (Qfloor (IEEE.toDouble (m / 60)) < 2 ^ 53)%Z ->
  IEEE.formatReadTime m = Some (formatReadTimeDoubleSpec m).
Proof.
  intros Hd Hm Hlt.
  unfold IEEE.formatReadTime, formatReadTimeDoubleSpec, mathRound,
    IEEE.div, IEEE.mul.
  rewrite !jsRem_nonneg by (exact Hm || reflexivity).
  assert (Hh : (0 <= Qfloor (IEEE.toDouble (m / 60)))%Z).
  { apply Qfloor_nonneg, toDouble_nonneg. unfold Qdiv.
    apply Qmult_le_0_compat; [exact Hm | discriminate]. }
  assert (Hmi : (0 <= Qfloor (Qmodulo m 60))%Z)
    by (apply Qfloor_nonneg, Qmodulo_nonneg; reflexivity).
  assert (Hs : (0 <= Qfloor (IEEE.toDouble (Qmodulo m 1 * 60) + (1 # 2)))%Z).
  { apply Qfloor_nonneg.
    assert (H : (0 <= IEEE.toDouble (Qmodulo m 1 * 60))%Q).
    { apply toDouble_nonneg, Qmult_le_0_compat; [|discriminate].
      now apply Qmodulo_nonneg. }
    apply (Qle_trans _ (0 + (1 # 2))); [discriminate|].
    now apply Qplus_le_l. }
  assert (Hb : (Z.abs (Qfloor (IEEE.toDouble (m / 60))) <? 2 ^ 53)%Z = true)
    by (apply Z.ltb_lt; lia).
  cbv zeta. rewrite Hd, Hb. cbn [andb]. f_equal.
  exact (componentsText_parts Hh Hmi Hs).
Qed.

(** C4: for a non-negative number of minutes [m], a double, with fewer than
    2^53 hours, [formatReadTime m] is the comma-joined list of the non-zero
    components hours, minutes and seconds, in that order, each with its unit
    in the singular or the plural, the seconds only when hours is zero, and
    the literal "< 1 second" when every component is zero; the components
    are the ones of the arithmetic of doubles: hours is the floor of the
    double nearest to [m / 60], minutes is [floor (m mod 60)], and seconds
    is the double nearest to [(m mod 1) * 60], rounded to an integer. 0
    gives "< 1 second", 1 gives "1 minute", 61 gives "1 hour, 1 minute" and
    1.5 gives "1 minute, 30 seconds". *)
Theorem formatReadTime_double_components :
  forall m : Q,
    IEEE.isDouble m = true ->
    (0 <= m)%Q ->
    (Qfloor (IEEE.toDouble (m / 60)) < 2 ^ 53)%Z ->
    IEEE.formatReadTime m = Some (formatReadTimeDoubleSpec m)
    /\ IEEE.formatReadTime 0 = Some "< 1 second"%string
    /\ IEEE.formatReadTime 1 = Some "1 minute"%string
    /\ IEEE.formatReadTime 61 = Some "1 hour, 1 minute"%string
    /\ IEEE.formatReadTime (3 # 2) = Some "1 minute, 30 seconds"%string.
Proof.
  intros m Hd Hm Hlt. split; [now apply formatReadTime_double_refines|].
  split; [|split; [|split]]; vm_compute; reflexivity.
Qed.

Lemma formatReadTime_double_components_witness :
  IEEE.formatReadTime minutes_0_075 = Some (formatReadTimeDoubleSpec minutes_0_075)
  /\ formatReadTimeDoubleSpec minutes_0_075 = "5 seconds"%string
  /\ IEEE.formatReadTime (7261 # 64) = Some (formatReadTimeDoubleSpec (7261 # 64))
  /\ formatReadTimeDoubleSpec (7261 # 64) = "1 hour, 53 minutes"%string.
Proof.
  split; [|split; [|split]].
  - refine (proj1 (@formatReadTime_double_components minutes_0_075 _ _ _)).
    + vm_compute. reflexivity.
    + vm_compute. discriminate.
    + vm_compute. reflexivity.
  - vm_compute. reflexivity.
  - refine (proj1 (@formatReadTime_double_components (7261 # 64) _ _ _)).
    + vm_compute. reflexivity.
    + vm_compute. discriminate.
    + vm_compute. reflexivity.
  - vm_compute. reflexivity.
Defined.

(** ** The report *)

Lemma fold_left_sum (f : FileStats -> Z) (rs : list FileStats) (a : Z) :
  fold_left (fun sum r => sum + f r)%Z rs a = (a + sumOf f rs)%Z.
Proof.
  revert a; induction rs as [|r rs IH]; intros a; simpl.
  - unfold sumOf; simpl; lia.
  - rewrite IH. unfold sumOf; simpl; lia.
Qed.

Lemma totalWords_sum rs : totalWords rs = sumOf (fun r => wordCount r) rs.
Proof. unfold totalWords, reduce. now rewrite fold_left_sum. Qed.

Lemma totalChars_sum rs : totalChars rs = sumOf (fun r => charCount r) rs.
Proof. unfold totalChars, reduce. now rewrite fold_left_sum. Qed.

Lemma totalParas_sum rs : totalParas rs = sumOf (fun r => paragraphCount r) rs.
Proof. unfold totalParas, reduce. now rewrite fold_left_sum. Qed.

Lemma totalTime_sum rs : totalTime rs = sumOf (fun r => readTime r) rs.
Proof. unfold totalTime, reduce. now rewrite fold_left_sum. Qed.

Lemma prints_consoleLog (line : string) : prints (consoleLog line) [line].
Proof. intros w; reflexivity. Qed.

Lemma prints_ret : prints (ret tt) [].
Proof. intros [rs out err]; unfold ret; simpl. now rewrite app_nil_r. Qed.

Lemma prints_seq (c1 c2 : IO unit) (l1 l2 : list string) :
  prints c1 l1 -> prints c2 l2 -> prints (c1 ;; c2) (l1 ++ l2).
Proof.
  intros H1 H2 w. unfold bind. rewrite H1, H2. simpl.
  now rewrite app_assoc.
Qed.

Lemma prints_forOf {A} (xs : list A) (body : A -> IO unit)
    (block : A -> list string) :
  (forall x, prints (body x) (block x)) ->
  prints (forOf xs body) (concat (map block xs)).
Proof.
  intros H. induction xs as [|x xs IH]; simpl.
  - apply prints_ret.
  - apply prints_seq; [apply H | exact IH].
Qed.

Lemma prints_printFileStats (many : bool) (r : FileStats) :
  prints (printFileStats many r) (fileBlock many r).
Proof.
  unfold printFileStats, fileBlock.
  apply prints_seq.
  - destruct many; [apply prints_consoleLog | apply prints_ret].
  - repeat (apply (prints_seq (l1 := [_])); [apply prints_consoleLog|]).
    apply prints_consoleLog.
Qed.

Lemma prints_printTotals (header : string) (rs : list FileStats) :
  prints (printTotals header rs) (totalsBlock header rs).
Proof.
  unfold printTotals, totalsBlock.
  rewrite totalWords_sum, totalChars_sum, totalParas_sum, totalTime_sum.
  repeat (apply (prints_seq (l1 := [_])); [apply prints_consoleLog|]).
  apply prints_consoleLog.
Qed.

Lemma report_run (values : Options) (rs : list FileStats) (errs : list string) :
  report values (afterAnalysis rs errs)
  = (match rs with [] => Exited 0%Z | _ :: _ => Returned tt end,
     {| results := rs;
        stdout := reportLines (totalOnly values) rs;
        stderr := errs |}).
Proof.
  destruct rs as [|r rs]; [reflexivity|].
  assert (H : prints
    ((if negb (totalOnly values)
      then forOf (r :: rs) (printFileStats (1 <? length (r :: rs)))
      else ret tt) ;;
     (if 1 <? length (r :: rs)
      then printTotals
             ((if negb (totalOnly values) then newline else "") ++ "totals:")
             (r :: rs)
      else ret tt))
    (reportLines (totalOnly values) (r :: rs))).
  { unfold reportLines. apply prints_seq.
    - destruct (totalOnly values); cbn [negb].
      + apply prints_ret.
      + apply prints_forOf. intros x. apply prints_printFileStats.
    - destruct (1 <? length (r :: rs)).
      + destruct (totalOnly values); apply prints_printTotals.
      + apply prints_ret. }
  unfold report, bind at 1 2, getResults, afterAnalysis.
  cbn [results length Nat.eqb ret].
  rewrite H. reflexivity.
Qed.

Lemma actionReport_run (rs : list FileStats) (errs : list string) :
  actionReport (afterAnalysis rs errs)
  = (match rs with [] => Exited 0%Z | _ :: _ => Returned tt end,
     {| results := rs;
        stdout := reportLines false rs;
        stderr := errs |}).
Proof.
  destruct rs as [|r rs]; [reflexivity|].
  assert (H : prints
    (forOf (r :: rs) (printFileStats (1 <? length (r :: rs))) ;;
     (if 1 <? length (r :: rs)
      then printTotals (newline ++ "totals:") (r :: rs)
      else ret tt))
    (reportLines false (r :: rs))).
  { unfold reportLines. apply prints_seq.
    - apply prints_forOf. intros x. apply prints_printFileStats.
    - destruct (1 <? length (r :: rs)).
      + apply prints_printTotals.
      + apply prints_ret. }
  unfold actionReport, bind at 1 2, getResults, afterAnalysis.
  cbn [results length Nat.eqb ret].
  rewrite H. reflexivity.
Qed.

Lemma fileBlock_no_header (many : bool) (r : FileStats) :
  hasTotalsBlock (fileBlock many r) = false.
Proof. destruct many; reflexivity. Qed.

Lemma fileBlocks_no_header (many : bool) (rs : list FileStats) :
  hasTotalsBlock (concat (map (fileBlock many) rs)) = false.
Proof.
  unfold hasTotalsBlock. induction rs as [|r rs IH]; [reflexivity|].
  cbn [map concat]. rewrite existsb_app, IH.
  pose proof (fileBlock_no_header many r) as H. unfold hasTotalsBlock in H.
  now rewrite H.
Qed.

Lemma reportLines_hasTotalsBlock (totalOnly : bool) (rs : list FileStats) :
  hasTotalsBlock (reportLines totalOnly rs) = (1 <? length rs).
Proof.
  destruct rs as [|r rs]; [reflexivity|].
  unfold reportLines, hasTotalsBlock. rewrite existsb_app.
  assert (H : existsb isTotalsHeader
                (if totalOnly then []
                 else concat (map (fileBlock (1 <? length (r :: rs))) (r :: rs)))
              = false).
  { destruct totalOnly; [reflexivity | apply fileBlocks_no_header]. }
  rewrite H.
  destruct (1 <? length (r :: rs)); [|reflexivity].
  destruct totalOnly; reflexivity.
Qed.

(** C3: the report has a totals block if and only if the result list has
    more than one entry; the block gives the number of files, the sums of
    the word, character and paragraph counts over the entries, and the
    rendering, done once, of the sum of the read times of the entries. Both
    entry points agree. *)
Theorem report_totals :
  forall (values : Options) (rs : list FileStats) (errs : list string),
    let out := stdout (snd (report values (afterAnalysis rs errs))) in
    let header :=
      ((if totalOnly values then "" else newline) ++ "totals:")%string in
    (hasTotalsBlock out = true <-> 1 < length rs)
    /\ (1 < length rs ->
        exists blocks,
          out = blocks ++ totalsBlock header rs
          /\ hasTotalsBlock blocks = false
          /\ totalWords rs = sumOf (fun r => wordCount r) rs
          /\ totalChars rs = sumOf (fun r => charCount r) rs
          /\ totalParas rs = sumOf (fun r => paragraphCount r) rs
          /\ totalTime rs = sumOf (fun r => readTime r) rs)
    /\ (length rs <= 1 -> hasTotalsBlock out = false)
    /\ stdout (snd (actionReport (afterAnalysis rs errs)))
       = stdout (snd (report {| recursive := recursive values;
                                totalOnly := false |}
                        (afterAnalysis rs errs))).
Proof.
  intros values rs errs out header. subst out.
  rewrite !report_run, actionReport_run. cbn [snd stdout totalOnly].
  split; [|split; [|split]].
  - rewrite reportLines_hasTotalsBlock. apply Nat.ltb_lt.
  - intros Hlen. destruct rs as [|r rs]; [simpl in Hlen; lia|].
    apply Nat.ltb_lt in Hlen. unfold reportLines. rewrite Hlen.
    eexists. split; [reflexivity|].
    split.
    + destruct (totalOnly values); [reflexivity | apply fileBlocks_no_header].
    + now rewrite totalWords_sum, totalChars_sum, totalParas_sum,
        totalTime_sum.
  - intros Hlen. rewrite reportLines_hasTotalsBlock. apply Nat.ltb_ge. lia.
  - reflexivity.
Qed.

Lemma report_totals_witness :
  let a := {| path := "a.txt";
              metrics := processText asciiToLowerCase (wordsText 300) |} in
  let b := {| path := "b.md";
              metrics := processText asciiToLowerCase (ofAscii "One") |} in
  exists blocks,
    stdout (snd (report {| recursive := false; totalOnly := true |}
                   (afterAnalysis [a; b] [])))
    = blocks ++ totalsBlock "totals:" [a; b].
Proof.
  intros a b.
  destruct (proj1 (proj2 (report_totals
                            {| recursive := false; totalOnly := true |}
                            [a; b] []))
              (Nat.lt_1_2)) as [blocks [H _]].
  exists blocks. exact H.
Defined.

(** C8: with the totals-only flag set and exactly one file in the result
    list, the report has no block for the file and no totals block: it
    prints nothing. *)
Theorem report_totalOnly_single :
  forall (values : Options) (r : FileStats) (errs : list string),
    totalOnly values = true ->
    report values (afterAnalysis [r] errs)
      = (Returned tt, afterAnalysis [r] errs)
    /\ stdout (snd (report values (afterAnalysis [r] errs))) = []
    /\ hasTotalsBlock (stdout (snd (report values (afterAnalysis [r] errs))))
       = false.
Proof.
  intros values r errs Ht.
  rewrite report_run, Ht. repeat split.
Qed.

Lemma report_totalOnly_single_witness :
  stdout (snd (report {| recursive := false; totalOnly := true |}
                 (afterAnalysis
                    [{| path := "a.txt";
                        metrics := processText asciiToLowerCase
                                     (ofAscii "One two") |}] [])))
  = [].
Proof.
  exact (proj1 (proj2 (report_totalOnly_single
                         {| recursive := false; totalOnly := true |}
                         {| path := "a.txt";
                            metrics := processText asciiToLowerCase
                                         (ofAscii "One two") |}
                         [] eq_refl))).
Defined.

(** ** The loop over the arguments *)

Section AnalysisProperties.

Variable host : Host.
Variable toLowerCase : jsstring -> jsstring.

Lemma collects_ret : collects (ret tt) [] [].
Proof. intros [rs out err]; unfold ret; simpl. now rewrite !app_nil_r. Qed.

Lemma collects_seq c1 c2 rs1 errs1 rs2 errs2 :
  collects c1 rs1 errs1 -> collects c2 rs2 errs2 ->
  collects (c1 ;; c2) (rs1 ++ rs2) (errs1 ++ errs2).
Proof.
  intros H1 H2 w. unfold bind. rewrite H1, H2. simpl.
  now rewrite !app_assoc.
Qed.

Lemma collects_forOf {A} (xs : list A) (body : A -> IO unit)
    (rs : A -> list FileStats) (errs : A -> list string) :
  (forall x, collects (body x) (rs x) (errs x)) ->
  collects (forOf xs body) (flat_map rs xs) (flat_map errs xs).
Proof.
  intros H. induction xs as [|x xs IH]; simpl.
  - apply collects_ret.
  - apply collects_seq; [apply H | exact IH].
Qed.

Lemma processFile_run (file : string) (w : World) :
  processFile host toLowerCase file w
  = (match analysisOf host toLowerCase file with
     | inl err => Thrown err
     | inr stats => Returned stats
     end, w).
Proof.
  unfold processFile, analysisOf.
  destruct (fileExists host file); cbn [negb]; [|reflexivity].
  destruct (fileText host file); reflexivity.
Qed.

(** The guarded analysis of one path, as both branches of the loop body
    have it. *)
Lemma collects_guarded (file : string) :
  collects
    (tryCatch
       (stats <- processFile host toLowerCase file ;; pushResult stats)
       (fun err => consoleError (errorLine file err)))
    (kept host toLowerCase [file]) (complaints host toLowerCase [file]).
Proof.
  intros w. unfold tryCatch, bind, kept, complaints. cbn [flat_map].
  rewrite processFile_run.
  destruct (analysisOf host toLowerCase file) as [err|stats]; destruct w as [rs out errs];
    cbn; now rewrite ?app_nil_r.
Qed.

Lemma kept_flat_map (files : list string) :
  flat_map (fun f => kept host toLowerCase [f]) files = kept host toLowerCase files.
Proof.
  unfold kept. apply flat_map_ext. intros f. cbn [flat_map].
  apply app_nil_r.
Qed.

Lemma complaints_flat_map (files : list string) :
  flat_map (fun f => complaints host toLowerCase [f]) files = complaints host toLowerCase files.
Proof.
  unfold complaints. apply flat_map_ext. intros f. cbn [flat_map].
  apply app_nil_r.
Qed.

Lemma collects_analyzePath (recursive : bool) (arg : string) :
  collects (analyzePath host toLowerCase recursive arg)
    (argResults host toLowerCase recursive arg) (argErrors host toLowerCase recursive arg).
Proof.
  unfold analyzePath, argResults, argErrors, candidates.
  destruct (fileExists host arg).
  - intros w. unfold tryCatch at 1. rewrite collects_guarded.
    cbn [fst snd]. now rewrite app_nil_r.
  - destruct (globScan host (if recursive then GLOB_RECURSIVE else GLOB_FLAT)
                {| cwd := arg; absolute := true; onlyFiles := true |})
      as [files stop].
    cbn [fst snd]. intros w. unfold tryCatch at 1, forAwaitOf, bind at 1.
    cbn [fst snd].
    pose proof (@collects_forOf _ files _ _ _ collects_guarded w) as Hloop.
    rewrite kept_flat_map, complaints_flat_map in Hloop.
    rewrite Hloop.
    destruct stop as [err|]; destruct w as [rs out errs]; cbn;
      now rewrite ?app_nil_r, ?app_assoc.
Qed.

Lemma collects_arguments (recursive : bool) (args : list string) :
  collects (forOf args (analyzePath host toLowerCase recursive))
    (flat_map (argResults host toLowerCase recursive) args)
    (flat_map (argErrors host toLowerCase recursive) args).
Proof. apply collects_forOf. intros x. apply collects_analyzePath. Qed.

Lemma processFiles_run (values : Options) (args : list string) :
  processFiles host toLowerCase values args emptyWorld
  = report values
      (afterAnalysis (flat_map (argResults host toLowerCase (recursive values)) args)
                     (flat_map (argErrors host toLowerCase (recursive values)) args)).
Proof.
  unfold processFiles, bind.
  now rewrite (collects_arguments (recursive values) args emptyWorld).
Qed.

Lemma argFails_results (recursive : bool) (arg : string) (err : error) :
  argFails host recursive arg err ->
  argResults host toLowerCase recursive arg = []
  /\ argErrors host toLowerCase recursive arg = [errorLine arg err].
Proof.
  unfold argFails, argResults, argErrors, candidates, kept, complaints,
    analysisOf.
  intros [[He Ht]|[He Hs]]; rewrite He.
  - cbn [fst snd flat_map]. rewrite He, Ht. split; reflexivity.
  - rewrite Hs. split; reflexivity.
Qed.

End AnalysisProperties.

Lemma main_exitCode (host : Host) (toLowerCase : jsstring -> jsstring)
    (values : Options) (args : list string) :
  args <> [] -> exitCode (main host toLowerCase values args emptyWorld) = 0%Z.
Proof.
  intros Hne. unfold main.
  destruct args as [|a args]; [congruence|]. cbn [length Nat.eqb].
  rewrite processFiles_run, report_run.
  now destruct (flat_map _ _).
Qed.

Lemma main_results (host : Host) (toLowerCase : jsstring -> jsstring)
    (values : Options) (args : list string) :
  results (snd (main host toLowerCase values args emptyWorld))
  = flat_map (argResults host toLowerCase (recursive values)) args
  /\ (args <> [] ->
      stderr (snd (main host toLowerCase values args emptyWorld))
      = flat_map (argErrors host toLowerCase (recursive values)) args).
Proof.
  unfold main. destruct args as [|a args]; [split; [reflexivity|congruence]|].
  cbn [length Nat.eqb]. rewrite processFiles_run, report_run.
  split; reflexivity.
Qed.

(** C6: a failure on one path is caught at that path: its error is
    reported, the path adds nothing to the result list, the paths before
    and after it are processed as they are without it, and the exit code is
    that of success. With one unreadable path and one valid path, the
    result list holds exactly the entry of the valid one. *)
Theorem failures_are_isolated :
  forall (host : Host) (toLowerCase : jsstring -> jsstring)
         (values : Options) (before after : list string)
         (bad : string) (err : error),
    argFails host (recursive values) bad err ->
    let run := main host toLowerCase values (before ++ bad :: after) emptyWorld in
    results (snd run)
      = flat_map (argResults host toLowerCase (recursive values)) before
        ++ flat_map (argResults host toLowerCase (recursive values)) after
    /\ results (snd run)
       = results (snd (processFiles host toLowerCase values (before ++ after)
                         emptyWorld))
    /\ In (errorLine bad err) (stderr (snd run))
    /\ exitCode run = 0%Z
    /\ (let run2 := main exampleHost asciiToLowerCase values
                      ["locked.txt"; "notes.csv"]%string emptyWorld in
        results (snd run2)
          = [{| path := "notes.csv";
                metrics := processText asciiToLowerCase (ofAscii "a,b c") |}]
        /\ stderr (snd run2)
           = ["error processing locked.txt: EACCES: permission denied"%string]
        /\ exitCode run2 = 0%Z).
Proof.
  intros host lower values before after bad err Hbad run.
  assert (Hne : before ++ bad :: after <> [])
    by (destruct before; discriminate).
  destruct (argFails_results lower Hbad) as [Hr He].
  destruct (main_results host lower values (before ++ bad :: after))
    as [Hres Herr].
  specialize (Herr Hne). fold run in Hres, Herr.
  assert (Hflat : flat_map (argResults host lower (recursive values))
                    (before ++ bad :: after)
                  = flat_map (argResults host lower (recursive values)) before
                    ++ flat_map (argResults host lower (recursive values)) after).
  { rewrite flat_map_app. cbn [flat_map]. now rewrite Hr. }
  split; [now rewrite Hres|].
  split.
  { rewrite Hres, Hflat, processFiles_run, report_run. cbn [snd results].
    now rewrite flat_map_app. }
  split.
  { rewrite Herr, flat_map_app. cbn [flat_map]. rewrite He.
    apply in_or_app; right. now left. }
  split; [now apply main_exitCode|].
  cbv zeta.
  destruct (main_results exampleHost asciiToLowerCase values
              ["locked.txt"; "notes.csv"]%string) as [Hres2 Herr2].
  rewrite Hres2, Herr2 by discriminate.
  rewrite main_exitCode by discriminate.
  unfold argResults, argErrors, candidates.
  repeat split.
Qed.

Lemma failures_are_isolated_witness :
  results (snd (main exampleHost asciiToLowerCase
                  {| recursive := false; totalOnly := false |}
                  (["notes.csv"%string] ++ "missing"%string :: ["docs/b.md"%string])
                  emptyWorld))
  = flat_map (argResults exampleHost asciiToLowerCase false) ["notes.csv"%string]
    ++ flat_map (argResults exampleHost asciiToLowerCase false)
         ["docs/b.md"%string].
Proof.
  refine (proj1 (failures_are_isolated
                   (host := exampleHost) asciiToLowerCase
                   {| recursive := false; totalOnly := false |}
                   ["notes.csv"%string] ["docs/b.md"%string]
                   (bad := "missing"%string)
                   (err := HostFailure
                     "Error: ENOENT: no such file or directory, open '/home/missing'") _)).
  right. split; reflexivity.
Defined.

(** ** The total read time *)

Lemma kept_readTime (host : Host) (toLowerCase : jsstring -> jsstring)
    (files : list string) :
  Forall (fun r : FileStats =>
            readTime r = Qceiling (inject_Z (wordCount r) / 238)
            /\ (0 <= wordCount r)%Z)
         (kept host toLowerCase files).
Proof.
  unfold kept. induction files as [|f files IH]; [constructor|].
  cbn [flat_map]. apply Forall_app. split; [|exact IH].
  unfold analysisOf.
  destruct (fileExists host f); [|constructor].
  destruct (fileText host f); constructor; [|constructor].
  cbn [metrics]. split; [reflexivity | apply processText_wordCount_nonneg].
Qed.

Lemma argResults_readTime (host : Host) (toLowerCase : jsstring -> jsstring)
    (recursive : bool) (args : list string) :
  Forall (fun r : FileStats =>
            readTime r = Qceiling (inject_Z (wordCount r) / 238)
            /\ (0 <= wordCount r)%Z)
         (flat_map (argResults host toLowerCase recursive) args).
Proof.
  induction args as [|a args IH]; [constructor|].
  cbn [flat_map]. apply Forall_app. split; [|exact IH].
  apply kept_readTime.
Qed.

Lemma sum_of_ceilings (rs : list FileStats) :
  Forall (fun r : FileStats =>
            readTime r = Qceiling (inject_Z (wordCount r) / 238)
            /\ (0 <= wordCount r)%Z) rs ->
  (Qceiling (inject_Z (sumOf (fun r => wordCount r) rs) / 238)
   <= sumOf (fun r => readTime r) rs)%Z.
Proof.
  induction 1 as [|r rs [Hr Hw] _ IH]; [discriminate|].
  unfold sumOf in *. cbn [map fold_right].
  rewrite Hr. change 238%Q with (inject_Z SILENT_READING_WPM) in *.
  rewrite !ceiling_quotient in *.
  Z.to_euclidean_division_equations. lia.
Qed.

Lemma last_app_cons {A} (l l' : list A) (x d : A) :
  last (l ++ x :: l') d = last (x :: l') d.
Proof.
  induction l as [|y l IH]; [reflexivity|].
  cbn [app]. rewrite <- IH. destruct (l ++ x :: l') eqn:E; [|reflexivity].
  destruct l; discriminate.
Qed.

(** C10: the total read time that the report formats is the sum of the
    read times of the files, each one the word count of its file divided by
    238 and rounded up to a whole minute. That sum is never below the
    rounded-up quotient of the total word count by 238, and it is above it
    for some inputs: two files of one word each give a total of 2 minutes,
    where the total of 2 words rounds up to 1. *)
Theorem totalTime_sums_rounded_minutes :
  forall (host : Host) (toLowerCase : jsstring -> jsstring)
         (values : Options) (args : list string),
    let run := processFiles host toLowerCase values args emptyWorld in
    let rs := results (snd run) in
    Forall (fun r : FileStats =>
              readTime r = Qceiling (inject_Z (wordCount r) / 238)) rs
    /\ totalTime rs = sumOf (fun r => readTime r) rs
    /\ (1 < length rs ->
        last (stdout (snd run)) ""%string
        = ("  total read time: " ++ formatReadTime (inject_Z (totalTime rs)))%string)
    /\ (Qceiling (inject_Z (totalWords rs) / 238) <= totalTime rs)%Z
    /\ (let two := results (snd (processFiles exampleHost asciiToLowerCase values
                                   ["docs/b.md"; "docs/sub/d.json"]%string
                                   emptyWorld)) in
        map (fun r : FileStats => wordCount r) two = [1; 1]%Z
        /\ map (fun r : FileStats => readTime r) two = [1; 1]%Z
        /\ totalTime two = 2%Z
        /\ Qceiling (inject_Z (totalWords two) / 238) = 1%Z).
Proof.
  intros host lower values args run rs. subst rs run.
  rewrite !processFiles_run, !report_run. cbn [snd results stdout].
  pose proof (argResults_readTime host lower (recursive values) args) as Hall.
  set (rs := flat_map (argResults host lower (recursive values)) args) in *.
  split; [|split; [|split; [|split]]].
  - eapply Forall_impl; [|exact Hall]. now intros r [H _].
  - apply totalTime_sum.
  - intros Hlen. destruct rs as [|r rs']; [simpl in Hlen; lia|].
    apply Nat.ltb_lt in Hlen. unfold reportLines. rewrite Hlen.
    unfold totalsBlock. rewrite last_app_cons.
    now rewrite totalTime_sum.
  - rewrite totalWords_sum, totalTime_sum. now apply sum_of_ceilings.
  - cbv zeta. repeat split.
Qed.

Lemma totalTime_sums_rounded_minutes_witness :
  let rs := results (snd (processFiles exampleHost asciiToLowerCase
                            {| recursive := true; totalOnly := false |}
                            ["docs"%string] emptyWorld)) in
  length rs = 3
  /\ last (stdout (snd (processFiles exampleHost asciiToLowerCase
                          {| recursive := true; totalOnly := false |}
                          ["docs"%string] emptyWorld))) ""%string
     = "  total read time: 3 minutes"%string.
Proof.
  intros rs. split; [reflexivity|].
  rewrite (proj1 (proj2 (proj2 (totalTime_sums_rounded_minutes
                                  exampleHost asciiToLowerCase
                                  {| recursive := true; totalOnly := false |}
                                  ["docs"%string]))));
    [reflexivity | cbn; lia].
Defined.

(** ** Paragraphs: the pieces between blank-line boundaries *)

Lemma isNewline_whiteSpace (c : codeUnit) :
  isNewline c = true -> isWhiteSpace c = true.
Proof.
  unfold isNewline, LF. intros H. apply N.eqb_eq in H. now subst c.
Qed.

Lemma endsBlank_cons (c : codeUnit) (l : jsstring) :
  endsBlank (c :: l)
  = match l with
    | [] => isNewline c
    | _ :: _ => isWhiteSpace c && endsBlank l
    end.
Proof. reflexivity. Qed.

(** What the tail [\s*\n] of the blank-line pattern finds at the head of
    [s]: the longest whitespace run closed by a newline, if there is one. *)
Lemma greedy_endsBlank (s : jsstring) :
  match greedy isWhiteSpace (matchHere [(isNewline, Once)]) s with
  | Some j =>
      1 <= j <= length s
      /\ endsBlank (firstn j s) = true
      /\ (forall m, j < m -> m <= length s -> endsBlank (firstn m s) = false)
  | None => forall m, endsBlank (firstn m s) = false
  end.
Proof.
  induction s as [|c t IH].
  - cbn. intros m. now rewrite firstn_nil.
  - cbn [greedy].
    assert (Hk : matchHere [(isNewline, Once)] (c :: t)
                 = if isNewline c then Some 1 else None)
      by (cbn; now destruct (isNewline c)).
    assert (Hnone : isNewline c = false ->
                    (forall m, endsBlank (firstn m t) = false) ->
                    forall m, endsBlank (firstn m (c :: t)) = false).
    { intros Hc Ht [|m]; [reflexivity|].
      cbn [firstn]. rewrite endsBlank_cons.
      specialize (Ht m). destruct (firstn m t); [exact Hc|].
      rewrite Ht. apply andb_false_r. }
    destruct (isWhiteSpace c) eqn:Hws.
    + destruct (greedy isWhiteSpace (matchHere [(isNewline, Once)]) t)
        as [n|].
      * destruct IH as [Hn [Hend Hlong]]. cbn [length].
        assert (Hne : firstn n t <> []).
        { intros E. apply (f_equal (@length _)) in E.
          rewrite firstn_length_le in E by lia. simpl in E. lia. }
        split; [lia|]. split.
        -- cbn [firstn]. rewrite endsBlank_cons.
           destruct (firstn n t); [congruence|].
           now rewrite Hws, Hend.
        -- intros [|m] Hm1 Hm2; [lia|].
           cbn [firstn]. rewrite endsBlank_cons.
           pose proof (Hlong m ltac:(lia) ltac:(lia)) as Hf.
           destruct (firstn m t) eqn:E.
           ++ apply (f_equal (@length _)) in E.
              rewrite firstn_length_le in E by lia. simpl in E. lia.
           ++ rewrite Hf. apply andb_false_r.
      * rewrite Hk. destruct (isNewline c) eqn:Hc.
        -- cbn [length]. split; [lia|]. split.
           ++ cbn. exact Hc.
           ++ intros [|[|m]] Hm1 Hm2; try lia.
              cbn [firstn]. rewrite endsBlank_cons.
              destruct t as [|d t']; [simpl in Hm2; lia|].
              cbn [firstn]. rewrite Hws. cbn [andb].
              apply (IH (S m)).
        -- now apply Hnone.
    + rewrite Hk.
      destruct (isNewline c) eqn:Hc.
      * apply isNewline_whiteSpace in Hc. congruence.
      * intros [|m]; [reflexivity|].
        cbn [firstn]. rewrite endsBlank_cons.
        destruct (firstn m t); [exact Hc | now rewrite Hws].
Qed.

Lemma matchHere_blankLine (s : jsstring) :
  match matchHere reBlankLine s with
  | Some n =>
      0 < n <= length s
      /\ isBlankLineBoundary (firstn n s) = true
      /\ (forall m, n < m -> m <= length s ->
                    isBlankLineBoundary (firstn m s) = false)
  | None => forall m, isBlankLineBoundary (firstn m s) = false
  end.
Proof.
  destruct s as [|c s].
  - cbn. intros m. now rewrite firstn_nil.
  - change (matchHere reBlankLine (c :: s))
      with (if isNewline c
            then option_map S
                   (greedy isWhiteSpace (matchHere [(isNewline, Once)]) s)
            else None).
    pose proof (greedy_endsBlank s) as G.
    destruct (isNewline c) eqn:Hc.
    + destruct (greedy isWhiteSpace (matchHere [(isNewline, Once)]) s) as [j|];
        cbn [option_map].
      * destruct G as [Hj [Hend Hlong]]. cbn [length].
        split; [lia|]. split.
        -- cbn [firstn isBlankLineBoundary]. now rewrite Hc, Hend.
        -- intros [|m] Hm1 Hm2; [lia|].
           cbn [firstn isBlankLineBoundary].
           rewrite Hlong by lia. apply andb_false_r.
      * intros [|m]; [reflexivity|].
        cbn [firstn isBlankLineBoundary]. rewrite G. apply andb_false_r.
    + intros [|m]; [reflexivity|].
      cbn [firstn isBlankLineBoundary]. now rewrite Hc.
Qed.

(** *** Splitting on a pattern whose matches are the separators *)

Section SplitSegments.

Variable re : regex.
Variable sep : jsstring -> bool.

Hypothesis matchHere_found :
  forall s n,
    matchHere re s = Some n ->
    0 < n <= length s
    /\ sep (firstn n s) = true
    /\ (forall m, n < m -> m <= length s -> sep (firstn m s) = false).

Hypothesis matchHere_none :
  forall s, matchHere re s = None -> forall m, sep (firstn m s) = false.

Lemma splitLoop_segments (k : nat) :
  forall (s : jsstring) (p q : nat),
    length s - q <= k -> p <= q <= length s ->
    (forall i n, p <= i < q -> sep (firstn n (skipn i s)) = false) ->
    SplitOn sep (skipn p s) (splitLoop re s p q).
Proof.
  induction k as [|k IH]; intros s p q Hk Hpq Hleft; rewrite splitLoop_step.
  - destruct (lt_dec q (length s)) as [Hq|Hq]; [lia|].
    assert (q = length s) by lia; subst q.
    unfold substring. rewrite firstn_all2 by (rewrite length_skipn; lia).
    apply SplitOn_last. intros i n Hi. rewrite length_skipn in Hi.
    rewrite skipn_skipn. apply Hleft. lia.
  - destruct (lt_dec q (length s)) as [Hq|Hq].
    + destruct (matchHere re (skipn q s)) as [n|] eqn:Hm.
      * destruct (matchHere_found _ Hm) as [Hn [Hsep Hlong]].
        rewrite length_skipn in Hn, Hlong.
        cbv zeta. rewrite Nat.min_l by lia.
        destruct (Nat.eq_dec (q + n) p) as [He|He]; [lia|].
        assert (Hs : skipn p s
                     = substring s p q
                       ++ firstn n (skipn q s) ++ skipn (q + n) s).
        { unfold substring.
          replace (q + n) with (n + q) by lia.
          rewrite <- (skipn_skipn n q s), firstn_skipn.
          replace q with ((q - p) + p) at 2 by lia.
          rewrite <- (skipn_skipn (q - p) p s). now rewrite firstn_skipn. }
        rewrite Hs. apply SplitOn_cons.
        -- exact Hsep.
        -- intros i m Hi. rewrite <- Hs, skipn_skipn.
           unfold substring in Hi.
           rewrite firstn_length_le in Hi by (rewrite length_skipn; lia).
           apply Hleft. lia.
        -- intros m Hm'. rewrite length_skipn in Hm'.
           replace (firstn n (skipn q s) ++ firstn m (skipn (q + n) s))
             with (firstn (n + m) (skipn q s)).
           { apply Hlong; lia. }
           replace (q + n) with (n + q) by lia.
           rewrite <- (skipn_skipn n q s).
           rewrite <- (firstn_skipn n (skipn q s)) at 1.
           rewrite firstn_app, firstn_firstn.
           rewrite Nat.min_r by lia.
           rewrite firstn_length_le by (rewrite length_skipn; lia).
           now replace (n + m - n) with m by lia.
        -- apply IH; [lia | lia |]. intros i m Hi. lia.
      * apply IH; [lia | lia |].
        intros i n Hi. destruct (Nat.eq_dec i q) as [->|Hne].
        -- now apply matchHere_none.
        -- apply Hleft. lia.
    + assert (q = length s) by lia; subst q.
      unfold substring. rewrite firstn_all2 by (rewrite length_skipn; lia).
      apply SplitOn_last. intros i n Hi. rewrite length_skipn in Hi.
      rewrite skipn_skipn. apply Hleft. lia.
Qed.

Lemma split_segments (s : jsstring) : SplitOn sep s (split re s).
Proof.
  destruct s as [|c s].
  - unfold split. destruct (matchHere re []) as [n|] eqn:Hm.
    + destruct (matchHere_found _ Hm) as [Hn _]. simpl in Hn. lia.
    + apply SplitOn_last. simpl. intros; lia.
  - unfold split.
    apply (@splitLoop_segments (length (c :: s)) (c :: s) 0 0);
      [lia | simpl; lia | intros; lia].
Qed.

End SplitSegments.

Lemma firstn_length_app {A} (a b : list A) : firstn (length a) (a ++ b) = a.
Proof. induction a as [|x a IH]; simpl; [reflexivity | now rewrite IH]. Qed.

Lemma skipn_length_app {A} (a b : list A) : skipn (length a) (a ++ b) = b.
Proof. induction a as [|x a IH]; simpl; [reflexivity | exact IH]. Qed.

Lemma app_eq_same_length {A} (a a' b b' : list A) :
  length a = length a' -> a ++ b = a' ++ b' -> a = a' /\ b = b'.
Proof.
  intros Hlen H. split.
  - rewrite <- (firstn_length_app a b), H, Hlen. apply firstn_length_app.
  - rewrite <- (skipn_length_app a b), H, Hlen. apply skipn_length_app.
Qed.

(** A separator that sits right after [u] in a text contradicts that none
    starts at that place. *)
Lemma separator_found (sep : jsstring -> bool) (u b rest : jsstring) :
  sep b = true ->
  sep (firstn (length b) (skipn (length u) (u ++ b ++ rest))) = true.
Proof. intros H. now rewrite skipn_length_app, firstn_length_app. Qed.

Lemma SplitOn_functional (sep : jsstring -> bool) :
  sep [] = false ->
  forall s segs, SplitOn sep s segs ->
  forall segs', SplitOn sep s segs' -> segs' = segs.
Proof.
  intros Hnil s segs H.
  induction H as [u Hnone | u b rest segs Hb Hleft Hlong Hrest IH];
    intros segs' H'.
  - inversion H' as [u' Hnone' | u' b' rest' segs'' Hb' Hleft' Hlong' Hrest' E];
      subst; [reflexivity|].
    exfalso.
    assert (Hne : b' <> []) by (intros ->; congruence).
    pose proof (separator_found sep u' b' rest' Hb') as Hf.
    rewrite Hnone in Hf; [discriminate|].
    rewrite !length_app. destruct b'; [congruence | simpl; lia].
  - assert (Hne : b <> []) by (intros ->; congruence).
    pose proof (separator_found sep u b rest Hb) as Hf.
    inversion H' as [u' Hnone' E | u' b' rest' segs'' Hb' Hleft' Hlong' Hrest' E];
      subst.
    + exfalso. rewrite Hnone' in Hf; [discriminate|].
      rewrite !length_app. destruct b; [congruence | simpl; lia].
    + assert (Hne' : b' <> []) by (intros ->; congruence).
      pose proof (separator_found sep u' b' rest' Hb') as Hf'.
      assert (Hu : length u = length u').
      { destruct (Nat.lt_trichotomy (length u) (length u')) as [Hlt|[Heq|Hgt]];
          [exfalso | exact Heq | exfalso].
        - rewrite <- E in Hf. rewrite Hleft' in Hf; [discriminate | exact Hlt].
        - rewrite E in Hf'. rewrite Hleft in Hf'; [discriminate | exact Hgt]. }
      destruct (app_eq_same_length _ _ _ _ Hu (eq_sym E)) as [-> E2].
      assert (Hlen : length b + length rest = length b' + length rest')
        by (rewrite <- !length_app; now rewrite E2).
      assert (Hbl : length b = length b').
      { destruct (Nat.lt_trichotomy (length b) (length b')) as [Hlt|[Heq|Hgt]];
          [exfalso | exact Heq | exfalso].
        - specialize (Hlong (length b' - length b) ltac:(lia)).
          assert (Eb : b ++ firstn (length b' - length b) rest = b').
          { pose proof (firstn_length_app b' rest') as Hp.
            rewrite <- E2, firstn_app in Hp.
            now rewrite (@firstn_all2 _ (length b') b) in Hp by lia. }
          congruence.
        - specialize (Hlong' (length b - length b') ltac:(lia)).
          assert (Eb : b' ++ firstn (length b - length b') rest' = b).
          { pose proof (firstn_length_app b rest) as Hp.
            rewrite E2, firstn_app in Hp.
            now rewrite (@firstn_all2 _ (length b) b') in Hp by lia. }
          congruence. }
      destruct (app_eq_same_length _ _ _ _ Hbl E2) as [-> ->].
      f_equal. now apply IH.
Qed.

Lemma split_blankLine_segments (s : jsstring) :
  SplitOn isBlankLineBoundary s (split reBlankLine s).
Proof.
  apply split_segments.
  - intros s' n Hm. pose proof (matchHere_blankLine s') as H.
    now rewrite Hm in H.
  - intros s' Hm. pose proof (matchHere_blankLine s') as H.
    now rewrite Hm in H.
Qed.

(** C7: the [paragraphCount] of [processText] is the number of non-empty
    segments of the lower-cased text split on its blank-line boundaries (a
    newline, whitespace only, another newline), of which there is exactly
    one segmentation. A lower-cased text that is not empty and has no blank
    line gives 1, and an empty one gives 0. *)
Theorem processText_paragraphCount :
  forall (toLowerCase : jsstring -> jsstring) (t : jsstring),
    let normalized := toLowerCase t in
    let m := processText toLowerCase t in
    (exists segs, SplitOn isBlankLineBoundary normalized segs)
    /\ (forall segs,
          SplitOn isBlankLineBoundary normalized segs ->
          paragraphCount m = Z.of_nat (length (filter truthy segs)))
    /\ (normalized <> [] ->
        (forall i n,
           isBlankLineBoundary (firstn n (skipn i normalized)) = false) ->
        paragraphCount m = 1%Z)
    /\ (normalized = [] -> paragraphCount m = 0%Z)
    /\ (toLowerCase [] = [] -> t = [] -> paragraphCount m = 0%Z)
    /\ paragraphCount
         (processText asciiToLowerCase
            (ofAscii "Hello   world" ++ [LF; LF] ++ ofAscii "Foo")) = 2%Z.
Proof.
  intros lower t normalized m.
  pose proof (split_blankLine_segments normalized) as Hsplit.
  assert (Huniq : forall segs,
             SplitOn isBlankLineBoundary normalized segs ->
             paragraphCount m = Z.of_nat (length (filter truthy segs))).
  { intros segs Hsegs.
    now rewrite (SplitOn_functional (sep := isBlankLineBoundary) eq_refl
                   Hsplit Hsegs). }
  split; [now exists (split reBlankLine normalized)|].
  split; [exact Huniq|].
  split; [|split; [|split]].
  - intros Hne Hnone.
    rewrite (Huniq [normalized]).
    + destruct normalized; [congruence | reflexivity].
    + apply SplitOn_last. intros i n _. apply Hnone.
  - intros E. subst m. unfold processText. cbn [paragraphCount].
    fold normalized. now rewrite E.
  - intros E ->. subst m. unfold processText. cbn [paragraphCount].
    now rewrite E.
  - reflexivity.
Qed.

Lemma processText_paragraphCount_witness :
  paragraphCount
    (processText asciiToLowerCase (ofAscii "One line" ++ [LF] ++ ofAscii "Two"))
  = 1%Z
  /\ paragraphCount (processText asciiToLowerCase []) = 0%Z.
Proof.
  split.
  - refine (proj1 (proj2 (proj2 (processText_paragraphCount asciiToLowerCase
              (ofAscii "One line" ++ [LF] ++ ofAscii "Two")))) _ _).
    + discriminate.
    + intros i n.
      do 13 (destruct i as [|i];
             [cbn [skipn];
              do 14 (destruct n as [|n]; [reflexivity|]); reflexivity|]).
      destruct n; reflexivity.
  - exact (proj1 (proj2 (proj2 (proj2 (proj2
             (processText_paragraphCount asciiToLowerCase [])))))
             eq_refl eq_refl).
Defined.

(** ** The resolver: files given directly and directory listings *)

Lemma stripPrefix_Some {A} (eqb : A -> A -> bool) (a s r : list A) :
  (forall x y, eqb x y = true <-> x = y) ->
  stripPrefix eqb a s = Some r <-> s = a ++ r.
Proof.
  intros Heqb. revert s. induction a as [|x a IH]; intros s; simpl.
  - split; [now intros [= ->] | now intros ->].
  - destruct s as [|y s]; [split; discriminate|].
    destruct (eqb x y) eqn:E.
    + apply Heqb in E. subst y. rewrite IH.
      split; [now intros -> | now intros [= ->]].
    + split; [discriminate|]. intros [= -> _].
      assert (eqb x x = true) by now apply Heqb. congruence.
Qed.

Lemma matchStar_spec (k : list ascii -> bool) (s : list ascii) :
  matchStar k s = true <->
  exists a b, s = a ++ b /\ noSlash a = true /\ k b = true.
Proof.
  induction s as [|c s IH]; simpl.
  - rewrite orb_false_r. split.
    + intros H. now exists [], [].
    + intros (a & b & E & _ & Hk).
      symmetry in E. apply app_eq_nil in E. destruct E as [_ ->]. exact Hk.
  - rewrite orb_true_iff, andb_true_iff, IH. split.
    + intros [Hk | [Hc (a & b & -> & Ha & Hk)]].
      * now exists [], (c :: s).
      * exists (c :: a), b. simpl. now rewrite Hc, Ha.
    + intros (a & b & E & Ha & Hk). destruct a as [|x a].
      * simpl in E. subst b. now left.
      * simpl in E. injection E as <- ->. simpl in Ha.
        apply andb_true_iff in Ha. destruct Ha as [Hx Ha].
        right. split; [exact Hx|]. now exists a, b.
Qed.

Lemma matchAfterSlash_spec (k : list ascii -> bool) (s : list ascii) :
  matchAfterSlash k s = true <->
  exists a b, s = a ++ SLASH :: b /\ k b = true.
Proof.
  induction s as [|c s IH]; simpl.
  - split; [discriminate|]. intros (a & b & E & _).
    destruct a; discriminate.
  - rewrite orb_true_iff, andb_true_iff, IH. split.
    + intros [[Hc Hk] | (a & b & -> & Hk)].
      * apply Ascii.eqb_eq in Hc. subst c. now exists [], s.
      * now exists (c :: a), b.
    + intros (a & b & E & Hk). destruct a as [|x a].
      * simpl in E. injection E as -> ->. left.
        split; [apply Ascii.eqb_refl | exact Hk].
      * simpl in E. injection E as <- ->. right. now exists a, b.
Qed.

Lemma matchExtension_spec (s : list ascii) :
  matchTokens [GLiteral "."%char; GBraces ALLOWED_EXTENSIONS] s = true <->
  exists ext, In ext ALLOWED_EXTENSIONS /\ s = "."%char :: ext.
Proof.
  cbn [matchTokens]. destruct s as [|c s].
  - split; [discriminate|]. now intros (ext & _ & E).
  - rewrite andb_true_iff, existsb_exists. split.
    + intros [Hc (ext & Hin & Hm)]. apply Ascii.eqb_eq in Hc. subst c.
      destruct (stripPrefix Ascii.eqb ext s) as [r|] eqn:E; [|discriminate].
      apply (@stripPrefix_Some _ Ascii.eqb _ _ _ Ascii.eqb_eq) in E.
      destruct r; [|discriminate]. rewrite app_nil_r in E. subst s.
      now exists ext.
    + intros (ext & Hin & [= -> ->]). split; [apply Ascii.eqb_refl|].
      exists ext. split; [exact Hin|].
      assert (E : stripPrefix Ascii.eqb ext ext = Some [])
        by (apply (@stripPrefix_Some _ Ascii.eqb _ _ _ Ascii.eqb_eq);
            now rewrite app_nil_r).
      now rewrite E.
Qed.

Lemma parseGlob_flat :
  parseGlob None (list_ascii_of_string GLOB_FLAT)
  = [GStar; GLiteral "."%char; GBraces ALLOWED_EXTENSIONS].
Proof. vm_compute. reflexivity. Qed.

Lemma parseGlob_recursive :
  parseGlob None (list_ascii_of_string GLOB_RECURSIVE)
  = [GGlobStar; GStar; GLiteral "."%char; GBraces ALLOWED_EXTENSIONS].
Proof. vm_compute. reflexivity. Qed.

Lemma globMatch_flat (s : list ascii) :
  globMatch GLOB_FLAT s = true <-> FlatMatch s.
Proof.
  unfold globMatch. rewrite parseGlob_flat.
  change (matchTokens [GStar; GLiteral "."%char; GBraces ALLOWED_EXTENSIONS] s)
    with (matchStar
            (matchTokens [GLiteral "."%char; GBraces ALLOWED_EXTENSIONS]) s).
  rewrite matchStar_spec. unfold FlatMatch. split.
  - intros (a & b & -> & Ha & Hk). apply matchExtension_spec in Hk.
    destruct Hk as (ext & Hin & ->). now exists a, ext.
  - intros (stem & ext & Hs & Hin & ->).
    exists stem, ("."%char :: ext). repeat split; [exact Hs|].
    apply matchExtension_spec. now exists ext.
Qed.

Lemma globMatch_recursive (s : list ascii) :
  globMatch GLOB_RECURSIVE s = true <->
  FlatMatch s \/ exists a b, s = a ++ SLASH :: b /\ FlatMatch b.
Proof.
  assert (E : globMatch GLOB_RECURSIVE s
              = matchGlobStar (globMatch GLOB_FLAT) s).
  { unfold globMatch. rewrite parseGlob_recursive, parseGlob_flat.
    reflexivity. }
  rewrite E. unfold matchGlobStar.
  rewrite orb_true_iff, matchAfterSlash_spec, globMatch_flat.
  split; (intros [H | (a & b & Es & H)]; [now left | right]);
    exists a, b; (split; [exact Es|]); now apply globMatch_flat.
Qed.

Lemma noSlash_app (a b : list ascii) :
  noSlash (a ++ b) = (noSlash a && noSlash b)%bool.
Proof. apply forallb_app. Qed.

Lemma noSlash_slash (a b : list ascii) : noSlash (a ++ SLASH :: b) = false.
Proof.
  rewrite noSlash_app. cbn. apply andb_false_r.
Qed.

Lemma FlatMatch_noSlash (s : list ascii) : FlatMatch s -> noSlash s = true.
Proof.
  intros (stem & ext & Hs & Hin & ->).
  rewrite noSlash_app, Hs. cbn [andb].
  cbn in Hin. destruct Hin as [<-|[<-|[<-|[<-|[]]]]]; reflexivity.
Qed.

Lemma joinNames_cons (n m : string) (rel : list string) :
  joinNames (n :: m :: rel)
  = list_ascii_of_string n ++ SLASH :: joinNames (m :: rel).
Proof. reflexivity. Qed.

Lemma joinNames_snoc (rel : list string) (l : string) :
  rel <> [] ->
  joinNames (rel ++ [l]) = joinNames rel ++ SLASH :: list_ascii_of_string l.
Proof.
  induction rel as [|n rel IH]; [congruence|]. intros _.
  destruct rel as [|m rel]; [reflexivity|].
  change ((n :: m :: rel) ++ [l]) with (n :: m :: (rel ++ [l])).
  rewrite !joinNames_cons.
  change (m :: rel ++ [l]) with ((m :: rel) ++ [l]).
  rewrite IH by discriminate. now rewrite <- app_assoc.
Qed.

Lemma first_slash (x y x' y' : list ascii) :
  noSlash x = true ->
  x ++ SLASH :: y = x' ++ SLASH :: y' ->
  (x = x' /\ y = y')
  \/ exists a, x' = x ++ SLASH :: a /\ y = a ++ SLASH :: y'.
Proof.
  revert x'. induction x as [|c x IH]; intros x' Hx E.
  - destruct x' as [|c' x'].
    + left. now injection E as ->.
    + right. injection E as <- ->. now exists x'.
  - cbn in Hx. apply andb_true_iff in Hx. destruct Hx as [Hc Hx].
    destruct x' as [|c' x'].
    + injection E as -> _. now rewrite Ascii.eqb_refl in Hc.
    + injection E as <- E. destruct (IH x' Hx E) as [[-> ->]|(a & -> & ->)].
      * now left.
      * right. now exists a.
Qed.

Lemma joinNames_flat (rel : list string) :
  rel <> [] -> FlatMatch (joinNames rel) -> length rel = 1.
Proof.
  intros Hne Hm. apply FlatMatch_noSlash in Hm.
  destruct rel as [|n [|m rel]]; [congruence | reflexivity |].
  rewrite joinNames_cons, noSlash_slash in Hm. discriminate.
Qed.

Lemma joinNames_base (rel : list string) (a b : list ascii) :
  Forall (fun n => noSlash (list_ascii_of_string n) = true) rel ->
  joinNames rel = a ++ SLASH :: b ->
  noSlash b = true ->
  list_ascii_of_string (last rel ""%string) = b.
Proof.
  revert a. induction rel as [|n rel IH]; intros a Hok E Hb.
  - destruct a; discriminate.
  - inversion Hok as [|? ? Hn Hrel]; subst.
    destruct rel as [|m rel].
    + cbn in E. rewrite E, noSlash_slash in Hn. discriminate.
    + rewrite joinNames_cons in E.
      destruct (first_slash _ _ _ _ Hn E) as [[_ E']|(a' & _ & E')].
      * destruct rel as [|k rel]; [exact E'|].
        rewrite joinNames_cons in E'. rewrite <- E', noSlash_slash in Hb.
        discriminate.
      * change (last (n :: m :: rel) ""%string)
          with (last (m :: rel) ""%string).
        now apply (IH a').
Qed.

(** The relative paths that the pattern of the flag setting matches, among
    those of well-named entries. *)
Lemma globMatch_names (recursive : bool) (rel : list string) :
  rel <> [] ->
  Forall (fun n => noSlash (list_ascii_of_string n) = true) rel ->
  globMatch (if recursive then GLOB_RECURSIVE else GLOB_FLAT) (joinNames rel)
    = true
  <-> HasAllowedExtension (list_ascii_of_string (last rel ""%string))
      /\ (recursive = false -> length rel = 1).
Proof.
  intros Hne Hok.
  assert (Hlast : noSlash (list_ascii_of_string (last rel ""%string)) = true).
  { destruct (exists_last Hne) as (init & l & ->).
    rewrite last_last. apply Forall_app in Hok. destruct Hok as [_ Hl].
    now inversion Hl. }
  assert (Hflat : HasAllowedExtension (list_ascii_of_string (last rel ""%string))
                  <-> FlatMatch (list_ascii_of_string (last rel ""%string))).
  { split.
    - intros (stem & ext & Hin & E). exists stem, ext.
      repeat split; [|exact Hin|exact E].
      rewrite E, noSlash_app in Hlast.
      now apply andb_true_iff in Hlast.
    - intros (stem & ext & _ & Hin & E). now exists stem, ext. }
  destruct recursive.
  - rewrite globMatch_recursive, Hflat. split.
    + intros [Hm | (a & b & E & Hm)].
      * pose proof (joinNames_flat Hne Hm) as Hlen.
        destruct rel as [|n [|m rel]]; try discriminate.
        split; [exact Hm | discriminate].
      * split; [|discriminate].
        now rewrite (joinNames_base _ _ Hok E (FlatMatch_noSlash Hm)).
    + intros [Hm _]. destruct (exists_last Hne) as (init & l & ->).
      rewrite last_last in Hm.
      destruct init as [|n init]; [now left|]. right.
      exists (joinNames (n :: init)), (list_ascii_of_string l).
      split; [now apply joinNames_snoc | exact Hm].
  - rewrite globMatch_flat, Hflat. split.
    + intros Hm. pose proof (joinNames_flat Hne Hm) as Hlen.
      destruct rel as [|n [|m rel]]; try discriminate.
      split; [exact Hm | reflexivity].
    + intros [Hm Hlen]. specialize (Hlen eq_refl).
      destruct rel as [|n [|m rel]]; try discriminate. exact Hm.
Qed.

Lemma scanEntry_In (pattern : string) (arg : string) (dir : list string)
    (entry : list string * Entry) (f : string) :
  In f (scanEntry pattern {| cwd := arg; absolute := true; onlyFiles := true |}
          dir entry) <->
  exists content rel,
    snd entry = RegularFile content
    /\ fst entry = dir ++ rel
    /\ rel <> []
    /\ forallb visible rel = true
    /\ globMatch pattern (joinNames rel) = true
    /\ f = showPath (fst entry).
Proof.
  unfold scanEntry. destruct entry as [p e].
  cbn [fst snd absolute onlyFiles negb]. split.
  - destruct (stripPrefix String.eqb dir p) as [[|n rel]|] eqn:E;
      try (intros []).
    apply (@stripPrefix_Some _ String.eqb _ _ _ String.eqb_eq) in E.
    destruct e as [content|]; cbn [andb]; [|intros []].
    destruct (forallb visible (n :: rel)
              && globMatch pattern (joinNames (n :: rel)))%bool eqn:Hc;
      [|intros []].
    apply andb_true_iff in Hc. destruct Hc as [Hv Hg].
    intros [<-|[]]. exists content, (n :: rel).
    repeat split; try assumption. discriminate.
  - intros (content & rel & -> & E & Hne & Hv & Hg & ->).
    apply (@stripPrefix_Some _ String.eqb _ _ _ String.eqb_eq) in E.
    rewrite E. destruct rel as [|n rel]; [congruence|].
    cbn [andb]. rewrite Hv, Hg. now left.
Qed.

Lemma wellNamed_names (fs : FileSystem) (p dir rel : list string) (e : Entry) :
  wellNamed fs = true -> In (p, e) fs -> p = dir ++ rel ->
  Forall (fun n => noSlash (list_ascii_of_string n) = true) rel.
Proof.
  intros Hwf Hin ->. unfold wellNamed in Hwf.
  rewrite forallb_forall in Hwf. specialize (Hwf _ Hin). cbn [fst] in Hwf.
  rewrite forallb_app in Hwf. apply andb_true_iff in Hwf.
  destruct Hwf as [_ Hrel]. apply Forall_forall.
  now rewrite forallb_forall in Hrel.
Qed.

(** C5: an argument that names an existing file is handed to the analysis
    as it is, whatever its extension. An argument that leads to a directory
    is expanded to absolute paths of regular files below the directory that
    have one of the extensions .txt, .md, .html and .json and no name
    starting with a period on the way from the directory down, and to all
    of those that a listing looks at: the ones directly inside the directory
    without the recursive flag, the ones at any depth with it. *)
Theorem resolver_expands_directories :
  forall (fs : FileSystem) (processCwd : list string)
         (toLowerCase : jsstring -> jsstring)
         (recursive : bool) (arg : string),
    let host := fsHost fs processCwd in
    (forall w,
       results (snd (analyzePath host toLowerCase recursive arg w))
       = results w ++ kept host toLowerCase (fst (candidates host recursive arg)))
    /\ (fileExists host arg = true ->
        candidates host recursive arg = ([arg], None))
    /\ (forall dir,
        fileExists host arg = false ->
        realPath fs processCwd arg = Some dir ->
        isDirectory fs dir = true ->
        wellNamed fs = true ->
        snd (candidates host recursive arg) = None
        /\ forall f,
             In f (fst (candidates host recursive arg)) <->
             exists p content rel,
               In (p, RegularFile content) fs
               /\ p = dir ++ rel
               /\ rel <> []
               /\ forallb visible rel = true
               /\ HasAllowedExtension (list_ascii_of_string (last rel ""%string))
               /\ (recursive = false -> length rel = 1)
               /\ f = showPath p).
Proof.
  intros fs processCwd lower recursive arg host.
  split; [|split].
  - intros w. now rewrite (collects_analyzePath host lower recursive arg w).
  - intros He. unfold candidates. now rewrite He.
  - intros dir He Hreal Hdir Hwf. unfold candidates. rewrite He.
    cbn [host fsHost globScan]. unfold fsScan. cbn [cwd].
    rewrite Hreal, Hdir. cbn [fst snd].
    split; [reflexivity|].
    intros f. rewrite in_flat_map. split.
    + intros ([p e] & Hin & Hf). apply scanEntry_In in Hf.
      cbn [fst snd] in Hf.
      destruct Hf as (content & rel & -> & Ep & Hne & Hv & Hg & ->).
      pose proof (@wellNamed_names fs p _ rel _ Hwf Hin Ep) as Hok.
      apply (globMatch_names recursive Hne Hok) in Hg.
      destruct Hg as [Hext Hlen].
      exists p, content, rel. repeat split; assumption.
    + intros (p & content & rel & Hin & Ep & Hne & Hv & Hext & Hlen & ->).
      exists (p, RegularFile content). split; [exact Hin|].
      apply scanEntry_In. exists content, rel. cbn [fst snd].
      repeat split; try assumption.
      apply (globMatch_names recursive Hne
               (@wellNamed_names fs p _ rel _ Hwf Hin Ep)).
      now split.
Qed.

Lemma resolver_expands_directories_witness :
  candidates exampleHost false "notes.csv"%string = (["notes.csv"%string], None)
  /\ (In "/home/docs/sub/d.json"%string
         (fst (candidates exampleHost true "docs"%string))
      <-> exists p content rel,
            In (p, RegularFile content) exampleFs
            /\ p = ["home"; "docs"]%string ++ rel
            /\ rel <> []
            /\ forallb visible rel = true
            /\ HasAllowedExtension (list_ascii_of_string (last rel ""%string))
            /\ (true = false -> length rel = 1)
            /\ "/home/docs/sub/d.json"%string = showPath p)
  /\ fst (candidates exampleHost false "docs"%string)
     = ["/home/docs/a.txt"; "/home/docs/b.md"]%string
  /\ fst (candidates exampleHost true "docs"%string)
     = ["/home/docs/a.txt"; "/home/docs/b.md"; "/home/docs/sub/d.json"]%string.
Proof.
  split; [|split; [|split]].
  - exact (proj1 (proj2 (resolver_expands_directories exampleFs ["home"%string]
                           asciiToLowerCase false "notes.csv"%string))
             eq_refl).
  - exact (proj2 (proj2 (proj2 (resolver_expands_directories exampleFs
                                  ["home"%string] asciiToLowerCase true
                                  "docs"%string))
                    ["home"; "docs"]%string eq_refl eq_refl eq_refl eq_refl)
             "/home/docs/sub/d.json"%string).
  - reflexivity.
  - reflexivity.
Defined.

(** A regular file with an allowed extension directly inside the directory
    is left out when its name starts with a period, and so is one below a
    directory of such a name, with or without the recursive flag. *)
Lemma hidden_files_are_not_listed :
  In (["home"; "docs"; ".hidden.txt"]%string,
      RegularFile (inr (ofAscii "h")))
     exampleFs
  /\ HasAllowedExtension (list_ascii_of_string ".hidden.txt")
  /\ fileExists exampleHost "docs"%string = false
  /\ realPath exampleFs ["home"%string] "docs"%string
     = Some ["home"; "docs"]%string
  /\ isDirectory exampleFs ["home"; "docs"]%string = true
  /\ fst (candidates exampleHost false "docs"%string)
     = ["/home/docs/a.txt"; "/home/docs/b.md"]%string
  /\ ~ In "/home/docs/.hidden.txt"%string
         (fst (candidates exampleHost false "docs"%string))
  /\ ~ In "/home/docs/.hidden.txt"%string
         (fst (candidates exampleHost true "docs"%string)).
Proof.
  split; [|split; [|split; [|split; [|split; [|split; [|split]]]]]].
  - vm_compute. tauto.
  - exists (list_ascii_of_string ".hidden"), (list_ascii_of_string "txt").
    split; [now left | reflexivity].
  - reflexivity.
  - reflexivity.
  - reflexivity.
  - reflexivity.
  - vm_compute. intros [H|[H|[]]]; discriminate H.
  - vm_compute. intros [H|[H|[H|[]]]]; discriminate H.
Qed.

(** A path is followed name by name: a slash after the name of a regular
    file, or a step through a name that does not exist, leads nowhere. *)
Example fsExists_sample :
  map (fileExists exampleHost)
    ["notes.csv"; "notes.csv/"; "docs/a.txt"; "docs/a.txt/"; "docs/../notes.csv";
     "missing/../notes.csv"; "/home/notes.csv"; "./docs/./b.md"; "docs"; ""]%string
  = [true; false; true; false; true; false; true; true; false; false].
Proof. reflexivity. Qed.

(** ** Sample runs *)

Example processText_sample :
  processText asciiToLowerCase
    (ofAscii "Hello   world" ++ [LF; LF] ++ ofAscii "Foo")
  = {| wordCount := 3; charCount := 18; paragraphCount := 2; readTime := 1 |}.
Proof. reflexivity. Qed.

Example processText_empty :
  processText asciiToLowerCase []
  = {| wordCount := 0; charCount := 0; paragraphCount := 0; readTime := 0 |}.
Proof. reflexivity. Qed.

Example split_whiteSpace_sample :
  split reWhiteSpaceRun (ofAscii " a  bc ")
  = [[]; ofAscii "a"; ofAscii "bc"; []].
Proof. reflexivity. Qed.

Example split_blankLine_sample :
  split reBlankLine ([LF; 32%N; LF; 32%N; LF] ++ ofAscii "b")
  = [[]; ofAscii "b"].
Proof. reflexivity. Qed.

Example formatNumber_sample :
  map formatNumber [0; 999; 1000; 1234567]%Z
  = ["0"; "999"; "1,000"; "1,234,567"]%string.
Proof. reflexivity. Qed.

Example main_sample :
  main exampleHost asciiToLowerCase
    {| recursive := false; totalOnly := true |}
    ["notes.csv"; "missing"; "docs"]%string emptyWorld
  = (Returned tt,
     {| results :=
          [{| path := "notes.csv";
              metrics := {| wordCount := 2; charCount := 5;
                            paragraphCount := 1; readTime := 1 |} |};
           {| path := "/home/docs/a.txt";
              metrics := {| wordCount := 2; charCount := 11;
                            paragraphCount := 1; readTime := 1 |} |};
           {| path := "/home/docs/b.md";
              metrics := {| wordCount := 1; charCount := 3;
                            paragraphCount := 1; readTime := 1 |} |}];
        stdout :=
          ["totals:"; "  files: 3"; "  words: 5"; "  characters: 19";
           "  paragraphs: 3"; "  total read time: 3 minutes"]%string;
        stderr :=
          ["error processing missing: Error: ENOENT: no such file or directory, open '/home/missing'"%string]
     |}).
Proof. reflexivity. Qed.

(** * Further properties of the program *)

(** ** Whole runs *)

Lemma action_run (host : Host) (toLowerCase : jsstring -> jsstring)
    (files : list string) (recursive : bool) :
  action host toLowerCase files recursive emptyWorld
  = actionReport
      (afterAnalysis (flat_map (argResults host toLowerCase recursive) files)
                     (flat_map (argErrors host toLowerCase recursive) files)).
Proof.
  unfold action, bind.
  now rewrite (collects_arguments host toLowerCase recursive files emptyWorld).
Qed.

(** X1: a run of [main] never ends with an uncaught error. Without
    arguments it writes the usage error to the error stream and exits with
    1, touching no file. With arguments it exits with 0: the result list
    holds the entries of the arguments in order, the standard output holds
    the report of that list and nothing else, and the error stream holds
    the error lines of the arguments and nothing else. *)
Theorem main_run_outcome :
  forall (host : Host) (toLowerCase : jsstring -> jsstring)
         (values : Options) (files : list string),
    let rs := flat_map (argResults host toLowerCase (recursive values)) files in
    let errs := flat_map (argErrors host toLowerCase (recursive values)) files in
    main host toLowerCase values files emptyWorld
    = match files with
      | [] =>
          (Exited 1%Z,
           {| results := []; stdout := [];
              stderr := ["Error: No files specified"%string] |})
      | _ :: _ =>
          (match rs with [] => Exited 0%Z | _ :: _ => Returned tt end,
           {| results := rs;
              stdout := reportLines (totalOnly values) rs;
              stderr := errs |})
      end
    /\ (forall e, fst (main host toLowerCase values files emptyWorld)
                  <> Thrown e)
    /\ exitCode (main host toLowerCase values files emptyWorld)
       = match files with [] => 1%Z | _ :: _ => 0%Z end.
Proof.
  intros host lower values files rs errs.
  assert (H : main host lower values files emptyWorld
              = match files with
                | [] =>
                    (Exited 1%Z,
                     {| results := []; stdout := [];
                        stderr := ["Error: No files specified"%string] |})
                | _ :: _ =>
                    (match rs with [] => Exited 0%Z | _ :: _ => Returned tt end,
                     {| results := rs;
                        stdout := reportLines (totalOnly values) rs;
                        stderr := errs |})
                end).
  { unfold main. destruct files as [|f files]; [reflexivity|].
    cbn [length Nat.eqb]. now rewrite processFiles_run, report_run. }
  rewrite H. split; [reflexivity|].
  split.
  - intros e. destruct files as [|f files]; [discriminate|].
    destruct rs; discriminate.
  - destruct files as [|f files]; [reflexivity|].
    destruct rs; reflexivity.
Qed.

(** X2: the [commander] entry point does what the [parseArgs] entry point
    does without the totals-only flag: given at least one argument, [action]
    and [main] end in the same outcome with the same result list, output
    and error lines. *)
Theorem action_agrees_with_main :
  forall (host : Host) (toLowerCase : jsstring -> jsstring)
         (files : list string) (recursive : bool),
    files <> [] ->
    action host toLowerCase files recursive emptyWorld
    = main host toLowerCase {| recursive := recursive; totalOnly := false |}
        files emptyWorld.
Proof.
  intros host lower files rec Hne. unfold main.
  destruct files as [|f files]; [congruence|]. cbn [length Nat.eqb].
  now rewrite action_run, actionReport_run, processFiles_run, report_run.
Qed.

Lemma action_agrees_with_main_witness :
  action exampleHost asciiToLowerCase ["docs"; "notes.csv"]%string true
    emptyWorld
  = main exampleHost asciiToLowerCase
      {| recursive := true; totalOnly := false |}
      ["docs"; "notes.csv"]%string emptyWorld.
Proof.
  apply (@action_agrees_with_main exampleHost asciiToLowerCase
           ["docs"; "notes.csv"]%string true).
  discriminate.
Defined.

Lemma allFail_results (host : Host) (toLowerCase : jsstring -> jsstring)
    (recursive : bool) (args : list string) (errs : list error) :
  allFail host recursive args errs ->
  flat_map (argResults host toLowerCase recursive) args = []
  /\ flat_map (argErrors host toLowerCase recursive) args
     = errorLines args errs.
Proof.
  induction 1 as [|arg err args errs Hfail _ [IHr IHe]]; [now split|].
  destruct (argFails_results toLowerCase Hfail) as [Hr He].
  cbn [flat_map errorLines]. rewrite Hr, He, IHr, IHe. now split.
Qed.

(** X3: when every argument fails, the run still ends well: the result
    list stays empty, the standard output holds the one line "no valid text
    files found.", the error stream holds one error line for each argument,
    in the order of the arguments, and the exit code is 0. *)
Theorem all_arguments_fail :
  forall (host : Host) (toLowerCase : jsstring -> jsstring)
         (values : Options) (files : list string) (errs : list error),
    files <> [] ->
    allFail host (recursive values) files errs ->
    main host toLowerCase values files emptyWorld
    = (Exited 0%Z,
       {| results := [];
          stdout := ["no valid text files found."%string];
          stderr := errorLines files errs |}).
Proof.
  intros host lower values files errs Hne Hall.
  destruct (allFail_results lower Hall) as [Hr He].
  unfold main. destruct files as [|f files]; [congruence|].
  cbn [length Nat.eqb]. rewrite processFiles_run, report_run, Hr, He.
  reflexivity.
Qed.

Lemma all_arguments_fail_witness :
  main exampleHost asciiToLowerCase
    {| recursive := false; totalOnly := false |}
    ["locked.txt"; "missing"]%string emptyWorld
  = (Exited 0%Z,
     {| results := [];
        stdout := ["no valid text files found."%string];
        stderr :=
          errorLines ["locked.txt"; "missing"]%string
            [HostFailure "EACCES: permission denied";
             HostFailure "Error: ENOENT: no such file or directory, open '/home/missing'"]
     |}).
Proof.
  apply (@all_arguments_fail exampleHost asciiToLowerCase
           {| recursive := false; totalOnly := false |}).
  - discriminate.
  - constructor; [left; split; reflexivity|].
    constructor; [right; split; reflexivity|].
    constructor.
Defined.

(** ** Failures inside a directory listing *)

Lemma kept_app (host : Host) (toLowerCase : jsstring -> jsstring)
    (a b : list string) :
  kept host toLowerCase (a ++ b)
  = kept host toLowerCase a ++ kept host toLowerCase b.
Proof. unfold kept. apply flat_map_app. Qed.

Lemma complaints_app (host : Host) (toLowerCase : jsstring -> jsstring)
    (a b : list string) :
  complaints host toLowerCase (a ++ b)
  = complaints host toLowerCase a ++ complaints host toLowerCase b.
Proof. unfold complaints. apply flat_map_app. Qed.

(** X4: inside a directory listing a failure is caught at the file: the
    file that cannot be analysed adds no entry and is reported under its own
    path, the files listed before and after it are analysed as without it,
    and a listing that ends with an error keeps what it yielded and is
    reported once more under the path of the argument. Nothing is printed
    to the standard output and the loop goes on. *)
Theorem listing_failures_are_isolated :
  forall (host : Host) (toLowerCase : jsstring -> jsstring)
         (recursive : bool) (arg : string)
         (before after : list string) (bad : string)
         (stop : option error) (err : error) (w : World),
    fileExists host arg = false ->
    globScan host (if recursive then GLOB_RECURSIVE else GLOB_FLAT)
      {| cwd := arg; absolute := true; onlyFiles := true |}
      = (before ++ bad :: after, stop) ->
    analysisOf host toLowerCase bad = inl err ->
    let run := analyzePath host toLowerCase recursive arg w in
    fst run = Returned tt
    /\ results (snd run)
       = results w ++ kept host toLowerCase before
         ++ kept host toLowerCase after
    /\ stderr (snd run)
       = stderr w ++ complaints host toLowerCase before
         ++ errorLine bad err :: complaints host toLowerCase after
         ++ match stop with
            | Some e => [errorLine arg e]
            | None => []
            end
    /\ stdout (snd run) = stdout w.
Proof.
  intros host lower rec arg before after bad stop err w He Hs Hbad run.
  subst run. rewrite (collects_analyzePath host lower rec arg w).
  unfold argResults, argErrors, candidates. rewrite He, Hs.
  cbn [fst snd results stderr stdout].
  rewrite kept_app, complaints_app.
  assert (Hk : kept host lower (bad :: after) = kept host lower after)
    by (unfold kept; cbn [flat_map]; now rewrite Hbad).
  assert (Hc : complaints host lower (bad :: after)
               = errorLine bad err :: complaints host lower after)
    by (unfold complaints; cbn [flat_map]; now rewrite Hbad).
  rewrite Hk, Hc. repeat split.
  now rewrite <- !app_assoc.
Qed.

Lemma listing_failures_are_isolated_witness :
  results (snd (analyzePath
                  (fsHost
                     [ (["d"], Directory);
                       (["d"; "a.txt"], RegularFile (inr (ofAscii "One two")));
                       (["d"; "b.txt"],
                        RegularFile (inl (HostFailure "EACCES")));
                       (["d"; "c.md"], RegularFile (inr (ofAscii "Three"))) ]%string
                     [])
                  asciiToLowerCase false "d"%string emptyWorld))
  = [ {| path := "/d/a.txt";
         metrics := processText asciiToLowerCase (ofAscii "One two") |};
      {| path := "/d/c.md";
         metrics := processText asciiToLowerCase (ofAscii "Three") |} ].
Proof.
  refine (proj1 (proj2
    (@listing_failures_are_isolated
       (fsHost
          [ (["d"], Directory);
            (["d"; "a.txt"], RegularFile (inr (ofAscii "One two")));
            (["d"; "b.txt"], RegularFile (inl (HostFailure "EACCES")));
            (["d"; "c.md"], RegularFile (inr (ofAscii "Three"))) ]%string
          [])
       asciiToLowerCase false "d"%string
       ["/d/a.txt"%string] ["/d/c.md"%string] "/d/b.txt"%string
       None (HostFailure "EACCES") emptyWorld _ _ _)));
    reflexivity.
Defined.

(** ** The entries of the result list *)

Lemma kept_entries (host : Host) (toLowerCase : jsstring -> jsstring)
    (files : list string) (r : FileStats) :
  In r (kept host toLowerCase files) ->
  In (path r) files
  /\ fileExists host (path r) = true
  /\ exists content,
       fileText host (path r) = inr content
       /\ metrics r = processText toLowerCase content.
Proof.
  unfold kept. rewrite in_flat_map. intros (f & Hin & Hr).
  unfold analysisOf in Hr.
  destruct (fileExists host f) eqn:He; [|destruct Hr].
  destruct (fileText host f) as [err|content] eqn:Ht; [destruct Hr|].
  destruct Hr as [<-|[]]. cbn [path metrics].
  repeat split; try assumption. now exists content.
Qed.

(** X5: every entry of the result list of a run stands for a file that
    existed and could be read when it was analysed: its path is the argument
    itself or a path that the listing of an argument yielded, the host says
    the path exists, and its metrics are those of the text that the host
    returned for the path. *)
Theorem results_are_readable_files :
  forall (host : Host) (toLowerCase : jsstring -> jsstring)
         (values : Options) (files : list string) (r : FileStats),
    In r (results (snd (main host toLowerCase values files emptyWorld))) ->
    (exists arg,
       In arg files
       /\ In (path r) (fst (candidates host (recursive values) arg)))
    /\ fileExists host (path r) = true
    /\ exists content,
         fileText host (path r) = inr content
         /\ metrics r = processText toLowerCase content.
Proof.
  intros host lower values files r Hin.
  rewrite (proj1 (main_results host lower values files)) in Hin.
  apply in_flat_map in Hin. destruct Hin as (arg & Harg & Hr).
  unfold argResults in Hr. apply kept_entries in Hr.
  destruct Hr as (Hp & He & Hc).
  split; [now exists arg|]. now split.
Qed.

Lemma results_are_readable_files_witness :
  fileExists exampleHost "/home/docs/b.md"%string = true
  /\ exists content,
       fileText exampleHost "/home/docs/b.md"%string = inr content
       /\ processText asciiToLowerCase (ofAscii "One")
          = processText asciiToLowerCase content.
Proof.
  refine (proj2 (@results_are_readable_files exampleHost asciiToLowerCase
                   {| recursive := false; totalOnly := false |}
                   ["docs"%string]
                   {| path := "/home/docs/b.md";
                      metrics := processText asciiToLowerCase (ofAscii "One") |}
                   _)).
  vm_compute. right. left. reflexivity.
Defined.

(** ** Lists of arguments *)

(** X6: the arguments do not influence one another: the result list of a
    run over two lists of arguments, one after the other, is the result
    list of the first followed by that of the second, and so are the error
    lines. An argument given twice is analysed twice. *)
Theorem arguments_compose :
  forall (host : Host) (toLowerCase : jsstring -> jsstring)
         (values : Options) (a b : list string),
    a <> [] -> b <> [] ->
    let run := fun files => snd (main host toLowerCase values files emptyWorld) in
    results (run (a ++ b)) = results (run a) ++ results (run b)
    /\ stderr (run (a ++ b)) = stderr (run a) ++ stderr (run b).
Proof.
  intros host lower values a b Ha Hb run. subst run. cbv beta.
  assert (Hab : a ++ b <> []) by (destruct a; [congruence | discriminate]).
  destruct (main_results host lower values (a ++ b)) as [Hr He].
  destruct (main_results host lower values a) as [Hra Hea].
  destruct (main_results host lower values b) as [Hrb Heb].
  rewrite Hr, Hra, Hrb, (He Hab), (Hea Ha), (Heb Hb).
  now rewrite !flat_map_app.
Qed.

Lemma arguments_compose_witness :
  results (snd (main exampleHost asciiToLowerCase
                  {| recursive := false; totalOnly := false |}
                  (["notes.csv"%string] ++ ["notes.csv"%string]) emptyWorld))
  = results (snd (main exampleHost asciiToLowerCase
                    {| recursive := false; totalOnly := false |}
                    ["notes.csv"%string] emptyWorld))
    ++ results (snd (main exampleHost asciiToLowerCase
                       {| recursive := false; totalOnly := false |}
                       ["notes.csv"%string] emptyWorld)).
Proof.
  refine (proj1 (@arguments_compose exampleHost asciiToLowerCase
                   {| recursive := false; totalOnly := false |}
                   ["notes.csv"%string] ["notes.csv"%string] _ _));
    discriminate.
Defined.

(** ** Whole minutes *)

Lemma Qfloor_whole_quotient (n : Z) (d : positive) :
  Qfloor (inject_Z n / inject_Z (Zpos d)) = (n / Zpos d)%Z.
Proof.
  unfold Qfloor, Qdiv, Qmult, Qinv, inject_Z; simpl.
  now rewrite Z.mul_1_r.
Qed.

Lemma Qmodulo_whole (n : Z) (d : positive) :
  (Qmodulo (inject_Z n) (inject_Z (Zpos d)) == inject_Z (n mod Zpos d))%Q.
Proof.
  unfold Qmodulo. rewrite Qfloor_whole_quotient.
  rewrite Z.mod_eq by discriminate.
  unfold Qminus. rewrite <- inject_Z_mult, <- inject_Z_opp, <- inject_Z_plus.
  reflexivity.
Qed.

Lemma whole_minutes_components (n : Z) :
  Qfloor (inject_Z n / 60) = (n / 60)%Z
  /\ Qfloor (Qmodulo (inject_Z n) 60) = (n mod 60)%Z
  /\ Qfloor (Qmodulo (inject_Z n) 1 * 60 + (1 # 2)) = 0%Z.
Proof.
  pose proof (Qmodulo_whole n 60) as H60.
  pose proof (Qmodulo_whole n 1) as H1.
  change (inject_Z 60) with 60%Q in H60.
  change (inject_Z 1) with 1%Q in H1.
  split; [apply (Qfloor_whole_quotient n 60)|]. split.
  - rewrite (Qfloor_comp _ _ H60). apply Qfloor_Z.
  - assert (H : (Qmodulo (inject_Z n) 1 * 60 + (1 # 2) == 1 # 2)%Q).
    { rewrite H1, Z.mod_1_r. reflexivity. }
    now rewrite (Qfloor_comp _ _ H).
Qed.



(** ** Whole minutes as doubles *)

Lemma Qpower_2_Z (n : Z) : (0 <= n)%Z -> (2 ^ n == inject_Z (2 ^ n))%Q.
Proof. intros H. now rewrite Zpower_Qpower. Qed.

Lemma Qdiv_le_cross (a b c d : Z) :
  (0 < b)%Z -> (0 < d)%Z -> (a * d <= c * b)%Z ->
  (inject_Z a / inject_Z b <= inject_Z c / inject_Z d)%Q.
Proof.
  intros Hb Hd H.
  assert (Hb' : (0 < inject_Z b)%Q) by (change 0%Q with (inject_Z 0); now rewrite <- Zlt_Qlt).
  assert (Hd' : (0 < inject_Z d)%Q) by (change 0%Q with (inject_Z 0); now rewrite <- Zlt_Qlt).
  apply Qle_shift_div_r; [exact Hb'|].
  assert (E : (inject_Z c / inject_Z d * inject_Z b == inject_Z c * inject_Z b / inject_Z d)%Q).
  { field. intros E. rewrite E in Hd'. inversion Hd'. }
  rewrite E. apply Qle_shift_div_l; [exact Hd'|].
  rewrite <- !inject_Z_mult. now rewrite <- Zle_Qle.
Qed.

Lemma floorLog2_le (x : Q) : (0 < x)%Q -> (2 ^ IEEE.floorLog2 x <= x)%Q.
Proof.
  intros Hx. unfold IEEE.floorLog2.
  set (c := (Z.log2 (Qnum x) - Z.log2 (Z.pos (Qden x)))%Z).
  destruct (Qle_bool (2 ^ c) x) eqn:E; [now apply Qle_bool_iff|].
  destruct x as [p q]. cbn [Qnum Qden] in *.
  assert (Hp : (0 < p)%Z) by (unfold Qlt in Hx; cbn in Hx; lia).
  pose proof (Z.log2_spec p Hp) as [Hp1 _].
  pose proof (Z.log2_spec (Z.pos q) eq_refl) as [_ Hq2].
  pose proof (Z.log2_nonneg p) as Hlp.
  pose proof (Z.log2_nonneg (Z.pos q)) as Hlq.
  replace (c - 1)%Z with (Z.log2 p - Z.succ (Z.log2 (Z.pos q)))%Z by (subst c; lia).
  rewrite Qpower_minus by discriminate.
  rewrite !Qpower_2_Z by lia.
  rewrite (Qmake_Qdiv p q).
  assert (Hpow : (0 < 2 ^ Z.succ (Z.log2 (Z.pos q)))%Z)
    by (apply Z.pow_pos_nonneg; lia).
  apply Qdiv_le_cross; [exact Hpow | reflexivity |].
  apply Z.mul_le_mono_nonneg; lia.
Qed.

Lemma floorLog2_lt (x : Q) (k : Z) :
  (0 < x)%Q -> (x < 2 ^ k)%Q -> (IEEE.floorLog2 x < k)%Z.
Proof.
  intros Hx Hk. pose proof (floorLog2_le Hx) as H.
  destruct (Z.lt_ge_cases (IEEE.floorLog2 x) k) as [|Hge]; [assumption|].
  exfalso. apply (Qlt_irrefl x).
  apply (Qlt_le_trans _ (2 ^ k)); [exact Hk|].
  apply (Qle_trans _ (2 ^ IEEE.floorLog2 x)); [|exact H].
  apply Qpower_le_compat_l; [exact Hge | discriminate].
Qed.

Lemma roundHalfEven_comp (x y : Q) :
  (x == y)%Q -> IEEE.roundHalfEven x = IEEE.roundHalfEven y.
Proof.
  intros E. unfold IEEE.roundHalfEven.
  rewrite (Qfloor_comp _ _ E).
  assert (E' : (x - inject_Z (Qfloor y) == y - inject_Z (Qfloor y))%Q) by now rewrite E.
  now rewrite (Qcompare_comp _ _ E' _ _ (Qeq_refl (1 # 2))).
Qed.

Lemma roundHalfEven_Z (k : Z) : IEEE.roundHalfEven (inject_Z k) = k.
Proof.
  unfold IEEE.roundHalfEven. rewrite Qfloor_Z.
  assert (H : Qcompare (inject_Z k - inject_Z k) (1 # 2) = Lt).
  { apply Qlt_alt.
    assert (E : (inject_Z k - inject_Z k == 0)%Q) by ring.
    rewrite E. reflexivity. }
  now rewrite H.
Qed.

Lemma roundHalfEven_near (y : Q) :
  (y - (1 # 2) <= inject_Z (IEEE.roundHalfEven y) <= y + (1 # 2))%Q.
Proof.
  unfold IEEE.roundHalfEven.
  pose proof (Qfloor_le y) as Hl. pose proof (Qlt_floor y) as Hu.
  rewrite inject_Z_plus in Hu. change (inject_Z 1) with 1%Q in Hu.
  destruct (Qcompare_spec (y - inject_Z (Qfloor y)) (1 # 2)) as [E|E|E].
  - destruct (Z.even (Qfloor y)); rewrite ?inject_Z_plus;
      change (inject_Z 1) with 1%Q; lra.
  - lra.
  - rewrite inject_Z_plus. change (inject_Z 1) with 1%Q. lra.
Qed.

Lemma inject_Z_pos (z : Z) : (0 < z)%Z -> (0 < inject_Z z)%Q.
Proof. intros H. change 0%Q with (inject_Z 0). now rewrite <- Zlt_Qlt. Qed.

(** Below [2^K] a double is a multiple of [1 / S] for a power of two [S] of
    at least [2^(53 - K)]. *)
Lemma nearest_scaled (x : Q) (K : Z) :
  (0 < x)%Q -> (x < 2 ^ K)%Q -> (0 <= K <= 53)%Z ->
  exists S : Z,
    (2 ^ (53 - K) <= S)%Z
    /\ (IEEE.nearest x
        == inject_Z (IEEE.roundHalfEven (x * inject_Z S)) / inject_Z S)%Q.
Proof.
  intros Hx Hk HK. unfold IEEE.nearest.
  pose proof (@floorLog2_lt x K Hx Hk) as Hfl.
  set (e := Z.max (IEEE.floorLog2 x - 52) (-1074)).
  assert (He : (e <= K - 53)%Z) by (subst e; lia).
  exists (2 ^ (- e))%Z.
  assert (Hpos : (0 < 2 ^ (- e))%Z) by (apply Z.pow_pos_nonneg; lia).
  assert (Hne : ~ (inject_Z (2 ^ (- e)) == 0)%Q).
  { intros E. pose proof (inject_Z_pos Hpos) as H. rewrite E in H. inversion H. }
  assert (E2 : (2 ^ e == / inject_Z (2 ^ (- e)))%Q).
  { replace e with (- (- e))%Z at 1 by lia.
    rewrite Qpower_opp. rewrite Qpower_2_Z by lia. reflexivity. }
  split; [apply Z.pow_le_mono_r; lia|].
  assert (Ey : (x / 2 ^ e == x * inject_Z (2 ^ (- e)))%Q).
  { rewrite E2. field. exact Hne. }
  rewrite (roundHalfEven_comp Ey). rewrite E2. reflexivity.
Qed.

Lemma toDouble_zero (x : Q) : (x == 0)%Q -> IEEE.toDouble x = 0%Q.
Proof.
  intros E. unfold IEEE.toDouble.
  now rewrite (Qred_complete _ _ E).
Qed.

Lemma toDouble_pos (x : Q) :
  (0 < x)%Q -> IEEE.toDouble x = IEEE.nearest (Qred x).
Proof.
  intros H. unfold IEEE.toDouble.
  rewrite <- (Qred_correct x) in H. unfold Qlt in H.
  destruct (Qnum (Qred x)); cbn in H; try lia. reflexivity.
Qed.

Lemma toDouble_whole (n : Z) :
  (0 <= n < 2 ^ 53)%Z -> (IEEE.toDouble (inject_Z n) == inject_Z n)%Q.
Proof.
  intros [Hn Hlt]. destruct (Z.eq_dec n 0) as [->|Hne]; [reflexivity|].
  assert (Hpos : (0 < inject_Z n)%Q) by (apply inject_Z_pos; lia).
  rewrite (toDouble_pos Hpos).
  pose proof (Qred_correct (inject_Z n)) as Hred.
  set (x := Qred (inject_Z n)) in *.
  assert (Hx : (0 < x)%Q) by now rewrite Hred.
  assert (Hk : (x < 2 ^ 53)%Q).
  { rewrite Hred, Qpower_2_Z by discriminate. now rewrite <- Zlt_Qlt. }
  destruct (@nearest_scaled x 53 Hx Hk ltac:(lia)) as (S & HS & ->).
  change (2 ^ (53 - 53))%Z with 1%Z in HS.
  assert (Ey : (x * inject_Z S == inject_Z (n * S))%Q)
    by now rewrite Hred, inject_Z_mult.
  rewrite (roundHalfEven_comp Ey), roundHalfEven_Z, inject_Z_mult.
  field. intros E. pose proof (@inject_Z_pos S ltac:(lia)) as H.
  rewrite E in H. inversion H.
Qed.

Lemma toDouble_whole_quotient (n : Z) :
  (0 <= n < 2 ^ 53)%Z ->
  Qfloor (IEEE.toDouble (inject_Z n / 60)) = (n / 60)%Z.
Proof.
  intros [Hn Hlt]. destruct (Z.eq_dec n 0) as [->|Hne]; [reflexivity|].
  assert (Hpos : (0 < inject_Z n / 60)%Q).
  { apply Qlt_shift_div_l; [reflexivity|]. rewrite Qmult_0_l.
    apply inject_Z_pos. lia. }
  rewrite (toDouble_pos Hpos).
  pose proof (Qred_correct (inject_Z n / 60)) as Hred.
  set (x := Qred (inject_Z n / 60)) in *.
  assert (Hx : (0 < x)%Q) by now rewrite Hred.
  assert (Hk : (x < 2 ^ 48)%Q).
  { rewrite Hred. apply Qlt_shift_div_r; [reflexivity|].
    rewrite Qpower_2_Z by discriminate.
    change 60%Q with (inject_Z 60). rewrite <- inject_Z_mult, <- Zlt_Qlt.
    change (2 ^ 53)%Z with 9007199254740992%Z in Hlt.
    change (2 ^ 48 * 60)%Z with 16888498602639360%Z. lia. }
  destruct (@nearest_scaled x 48 Hx Hk ltac:(lia)) as (S & HS & E).
  change (2 ^ (53 - 48))%Z with 32%Z in HS.
  rewrite (Qfloor_comp _ _ E), <- Zdiv_Qdiv.
  pose proof (roundHalfEven_near (x * inject_Z S)) as [Hlo Hhi].
  set (k := IEEE.roundHalfEven (x * inject_Z S)) in *.
  assert (Ey : (60 * (x * inject_Z S) == inject_Z (n * S))%Q).
  { rewrite Hred, inject_Z_mult. field. }
  set (P := (n * S)%Z) in *.
  assert (Hz1 : (P + - 30 <= 60 * k)%Z).
  { rewrite Zle_Qle, inject_Z_plus, inject_Z_mult, <- Ey.
    change (inject_Z (-30)) with (- 30)%Q. change (inject_Z 60) with 60%Q. lra. }
  assert (Hz2 : (60 * k <= P + 30)%Z).
  { rewrite Zle_Qle, inject_Z_plus, inject_Z_mult, <- Ey.
    change (inject_Z 30) with 30%Q. change (inject_Z 60) with 60%Q. lra. }
  subst P.
  pose proof (Z.div_mod n 60 ltac:(discriminate)) as Hdm.
  pose proof (Z.mod_pos_bound n 60 eq_refl) as Hr.
  symmetry. apply (Z.div_unique k S (n / 60) (k - S * (n / 60))); [|lia].
  left. nia.
Qed.

Lemma isDouble_whole (n : Z) :
  (0 <= n < 2 ^ 53)%Z -> IEEE.isDouble (inject_Z n) = true.
Proof.
  intros Hn. unfold IEEE.isDouble. apply andb_true_iff. split.
  - apply Qeq_eq_bool, toDouble_whole, Hn.
  - apply Qle_bool_iff. rewrite Qabs_pos by (rewrite <- (Zle_Qle 0); lia).
    apply (Qle_trans _ (inject_Z (2 ^ 53))).
    + rewrite <- Zle_Qle. lia.
    + vm_compute. discriminate.
Qed.

(** X16: a whole number of minutes below 2^53, which is all that the
    program passes, is a double, and on it the arithmetic of doubles gives
    what the exact arithmetic gives: the quotient by 60 is rounded by less
    than the distance to the next whole number of hours, and there are no
    seconds. *)
Theorem formatReadTime_whole_minutes_in_doubles :
  forall n : Z,
    (0 <= n < 2 ^ 53)%Z ->
    IEEE.isDouble (inject_Z n) = true
    /\ IEEE.formatReadTime (inject_Z n) = Some (formatReadTime (inject_Z n)).
Proof.
  intros n Hn. split; [now apply isDouble_whole|].
  assert (H0 : (0 <= inject_Z n)%Q) by (rewrite <- (Zle_Qle 0); lia).
  assert (Hq : (n / 60 < 2 ^ 53)%Z).
  { apply Z.div_lt_upper_bound; [reflexivity|].
    change (2 ^ 53)%Z with 9007199254740992%Z in *. lia. }
  rewrite formatReadTime_double_refines;
    [|now apply isDouble_whole | exact H0
     |now rewrite toDouble_whole_quotient].
  rewrite (formatReadTime_refines H0). f_equal.
  unfold formatReadTimeDoubleSpec, formatReadTimeSpec.
  destruct (whole_minutes_components n) as (Eh & Em & Es).
  rewrite toDouble_whole_quotient, Eh, Es by exact Hn.
  assert (Ez : (Qmodulo (inject_Z n) 1 * 60 == 0)%Q).
  { pose proof (Qmodulo_whole n 1) as H1.
    change (inject_Z 1) with 1%Q in H1.
    rewrite H1, Z.mod_1_r. reflexivity. }
  rewrite (toDouble_zero Ez). reflexivity.
Qed.

Lemma formatReadTime_whole_minutes_in_doubles_witness :
  IEEE.formatReadTime (inject_Z 135) = Some "2 hours, 15 minutes"%string.
Proof.
  rewrite (proj2 (@formatReadTime_whole_minutes_in_doubles 135
                    ltac:(split; [discriminate | reflexivity]))).
  reflexivity.
Defined.

(** ** The paths in the report *)

Lemma listedPaths_app (a b : list string) :
  listedPaths (a ++ b) = listedPaths a ++ listedPaths b.
Proof. unfold listedPaths. apply flat_map_app. Qed.

Lemma listedPaths_fileBlocks (many : bool) (rs : list FileStats) :
  listedPaths (concat (map (fileBlock many) rs)) = map (fun r => path r) rs.
Proof.
  induction rs as [|r rs IH]; [reflexivity|].
  cbn [map concat]. rewrite listedPaths_app, IH.
  destruct many; reflexivity.
Qed.

(** X8: the report lists every analysed file once and in the order of the
    result list: the lines that start with a hyphen and a space carry
    exactly the paths of the entries. With the totals-only flag, or with an
    empty result list, no path is listed. *)
Theorem report_lists_paths :
  forall (values : Options) (rs : list FileStats) (errs : list string),
    listedPaths (stdout (snd (report values (afterAnalysis rs errs))))
    = if totalOnly values then [] else map (fun r => path r) rs.
Proof.
  intros values rs errs. rewrite report_run. cbn [snd stdout].
  destruct rs as [|r rs]; [now destruct (totalOnly values)|].
  unfold reportLines. rewrite listedPaths_app.
  assert (Ht : listedPaths
                 (if 1 <? length (r :: rs)
                  then totalsBlock
                         ((if totalOnly values then ""%string else newline)
                          ++ "totals:")%string (r :: rs)
                  else []) = []).
  { destruct (1 <? length (r :: rs)); [|reflexivity].
    destruct (totalOnly values); reflexivity. }
  rewrite Ht, app_nil_r.
  destruct (totalOnly values); [reflexivity|].
  apply listedPaths_fileBlocks.
Qed.

(** ** Bounds on the metrics *)

Lemma countRuns_bound (s : jsstring) :
  2 * countRuns true s <= length s /\ 2 * countRuns false s <= length s + 1.
Proof.
  induction s as [|c s [IHt IHf]]; [simpl; lia|].
  cbn [countRuns length]. destruct (isWhiteSpace c); lia.
Qed.

Lemma truthy_pieces_le (segs : list jsstring) :
  length (filter truthy segs) <= length (concat segs).
Proof.
  induction segs as [|u segs IH]; [reflexivity|].
  cbn [filter concat]. rewrite length_app.
  destruct u as [|c u]; cbn [truthy length]; lia.
Qed.

Lemma SplitOn_concat_le (sep : jsstring -> bool) (s : jsstring)
    (segs : list jsstring) :
  SplitOn sep s segs -> length (concat segs) <= length s.
Proof.
  induction 1 as [u _ | u b rest segs _ _ _ _ IH].
  - cbn [concat]. now rewrite app_nil_r.
  - cbn [concat]. rewrite !length_app. lia.
Qed.

(** X9: the metrics of a text bound one another: the read time lies
    between 0 and the word count, twice the word count is at most the
    character count plus one, and the paragraph count lies between 0 and the
    character count. *)
Theorem processText_bounds :
  forall (toLowerCase : jsstring -> jsstring) (t : jsstring),
    let m := processText toLowerCase t in
    (0 <= readTime m <= wordCount m)%Z
    /\ (2 * wordCount m <= charCount m + 1)%Z
    /\ (0 <= paragraphCount m <= charCount m)%Z.
Proof.
  intros lower t m.
  pose proof (processText_readTime_eq lower t) as Hr.
  pose proof (processText_wordCount_nonneg lower t) as Hw.
  fold m in Hr, Hw.
  split; [rewrite Hr; Z.to_euclidean_division_equations; lia|].
  subst m. unfold processText. cbn [wordCount charCount paragraphCount].
  split.
  - rewrite split_whiteSpace_count. unfold nonWhiteSpaceRuns.
    pose proof (countRuns_bound (lower t)). lia.
  - pose proof (truthy_pieces_le (split reBlankLine (lower t))).
    pose proof (SplitOn_concat_le (split_blankLine_segments (lower t))).
    lia.
Qed.

(** ** The words of a text *)

Lemma whiteSpacePrefix_run (s : jsstring) :
  forallb isWhiteSpace (firstn (whiteSpacePrefix s) s) = true
  /\ forall m, whiteSpacePrefix s < m -> m <= length s ->
               forallb isWhiteSpace (firstn m s) = false.
Proof.
  induction s as [|c s [IH1 IH2]].
  - split; [reflexivity|]. simpl. intros; lia.
  - cbn [whiteSpacePrefix]. destruct (isWhiteSpace c) eqn:Hc.
    + split.
      * cbn [firstn forallb]. now rewrite Hc, IH1.
      * intros [|m] Hm1 Hm2; [lia|]. cbn [firstn forallb].
        cbn [length] in Hm2. rewrite IH2 by lia. apply andb_false_r.
    + split; [reflexivity|].
      intros [|m] Hm1 Hm2; [lia|]. cbn [firstn forallb]. now rewrite Hc.
Qed.

Lemma matchHere_whiteSpaceRun_found (s : jsstring) (n : nat) :
  matchHere reWhiteSpaceRun s = Some n ->
  0 < n <= length s
  /\ isWhiteSpaceRun (firstn n s) = true
  /\ (forall m, n < m -> m <= length s ->
                isWhiteSpaceRun (firstn m s) = false).
Proof.
  rewrite matchHere_whiteSpaceRun. destruct s as [|c s]; [discriminate|].
  destruct (isWhiteSpace c) eqn:Hc; [|discriminate]. intros [= <-].
  destruct (whiteSpacePrefix_run s) as [H1 H2].
  pose proof (whiteSpacePrefix_le s). cbn [length].
  split; [lia|]. split.
  - unfold isWhiteSpaceRun. cbn [firstn truthy forallb andb].
    now rewrite Hc, H1.
  - intros [|m] Hm1 Hm2; [lia|].
    unfold isWhiteSpaceRun. cbn [firstn truthy forallb andb].
    rewrite H2 by lia. apply andb_false_r.
Qed.

Lemma matchHere_whiteSpaceRun_none (s : jsstring) :
  matchHere reWhiteSpaceRun s = None ->
  forall m, isWhiteSpaceRun (firstn m s) = false.
Proof.
  rewrite matchHere_whiteSpaceRun. destruct s as [|c s].
  - intros _ m. now rewrite firstn_nil.
  - destruct (isWhiteSpace c) eqn:Hc; [discriminate|].
    intros _ [|m]; [reflexivity|].
    unfold isWhiteSpaceRun. cbn [firstn truthy forallb andb]. now rewrite Hc.
Qed.

Lemma no_run_inside (u tail : jsstring) :
  (forall i n, i < length u ->
               isWhiteSpaceRun (firstn n (skipn i (u ++ tail))) = false) ->
  forallb notWhiteSpace u = true.
Proof.
  induction u as [|c u IH]; intros H; [reflexivity|].
  cbn [forallb]. apply andb_true_iff. split.
  - specialize (H 0 1 ltac:(simpl; lia)).
    unfold isWhiteSpaceRun in H. cbn in H. rewrite andb_true_r in H.
    unfold notWhiteSpace. now rewrite H.
  - apply IH. intros i n Hi. apply (H (S i) n). simpl. lia.
Qed.

Lemma filter_notWhiteSpace_all (u : jsstring) :
  forallb notWhiteSpace u = true -> filter notWhiteSpace u = u.
Proof.
  induction u as [|c u IH]; [reflexivity|]. cbn [forallb filter].
  intros H. apply andb_true_iff in H. destruct H as [Hc Hu].
  now rewrite Hc, IH.
Qed.

Lemma filter_notWhiteSpace_run (b : jsstring) :
  isWhiteSpaceRun b = true -> filter notWhiteSpace b = [].
Proof.
  unfold isWhiteSpaceRun. intros H. apply andb_true_iff in H.
  destruct H as [_ H]. induction b as [|c b IH]; [reflexivity|].
  cbn [forallb] in H. apply andb_true_iff in H. destruct H as [Hc Hb].
  cbn [filter]. unfold notWhiteSpace at 1. rewrite Hc. cbn [negb].
  now apply IH.
Qed.

Lemma SplitOn_words (s : jsstring) (segs : list jsstring) :
  SplitOn isWhiteSpaceRun s segs ->
  Forall (fun u => forallb notWhiteSpace u = true) segs
  /\ concat segs = filter notWhiteSpace s.
Proof.
  induction 1 as [u Hu | u b rest segs Hb Hleft _ _ [IHf IHc]].
  - assert (H : forallb notWhiteSpace u = true).
    { apply (no_run_inside u []). intros i n Hi.
      rewrite app_nil_r. now apply Hu. }
    split; [now constructor|].
    cbn [concat]. now rewrite app_nil_r, filter_notWhiteSpace_all.
  - assert (H : forallb notWhiteSpace u = true)
      by (apply (no_run_inside u (b ++ rest)); exact Hleft).
    split; [now constructor|].
    cbn [concat]. rewrite !filter_app, IHc.
    now rewrite (filter_notWhiteSpace_all u H), (filter_notWhiteSpace_run b Hb).
Qed.

Lemma concat_truthy (segs : list jsstring) :
  concat (filter truthy segs) = concat segs.
Proof.
  induction segs as [|u segs IH]; [reflexivity|].
  cbn [filter concat]. destruct u as [|c u]; cbn [truthy concat app];
    now rewrite IH.
Qed.

(** X10: the words that [processText] counts are the text without its
    whitespace: each word is a non-empty string with no whitespace in it,
    and the words put end to end are the lower-cased text with every
    whitespace code unit removed. *)
Theorem words_are_the_text_without_whiteSpace :
  forall (toLowerCase : jsstring -> jsstring) (t : jsstring),
    let words := filter truthy (split reWhiteSpaceRun (toLowerCase t)) in
    wordCount (processText toLowerCase t) = Z.of_nat (length words)
    /\ Forall (fun w => w <> [] /\ forallb notWhiteSpace w = true) words
    /\ concat words = filter notWhiteSpace (toLowerCase t).
Proof.
  intros lower t words. split; [reflexivity|].
  assert (Hs : SplitOn isWhiteSpaceRun (lower t)
                 (split reWhiteSpaceRun (lower t))).
  { apply split_segments.
    - intros s n. apply matchHere_whiteSpaceRun_found.
    - intros s. apply matchHere_whiteSpaceRun_none. }
  destruct (SplitOn_words Hs) as [Hf Hc].
  split.
  - subst words. rewrite Forall_forall in *. intros w Hw.
    apply filter_In in Hw. destruct Hw as [Hin Ht].
    split; [now destruct w | now apply Hf].
  - subst words. now rewrite concat_truthy.
Qed.

(** ** Grouped digits *)

Lemma string_of_uint_digits (d : Decimal.uint) :
  forallb isDigit (list_ascii_of_string (NilEmpty.string_of_uint d)) = true.
Proof. induction d; cbn; auto. Qed.

Lemma showNumber_digits (n : Z) :
  (0 <= n)%Z -> forallb isDigit (list_ascii_of_string (showNumber n)) = true.
Proof.
  intros Hn. unfold showNumber. destruct n as [|p|p]; [reflexivity | | lia].
  cbn [Z.to_int NilZero.string_of_int].
  unfold NilZero.string_of_uint.
  destruct (Pos.to_uint p) eqn:E; try (rewrite <- E; apply string_of_uint_digits).
  reflexivity.
Qed.

Lemma isDigit_not_comma (c : ascii) :
  isDigit c = true -> Ascii.eqb c COMMA = false.
Proof.
  intros H. destruct (Ascii.eqb c COMMA) eqn:E; [|reflexivity].
  apply Ascii.eqb_eq in E. subst c. discriminate.
Qed.

Lemma groupDigits_digits (ds : list ascii) (k : nat) :
  forallb isDigit ds = true ->
  filter (fun c => negb (Ascii.eqb c COMMA)) (groupDigits ds k) = ds.
Proof.
  revert k. induction ds as [|d ds IH]; intros k H; [reflexivity|].
  cbn [forallb] in H. apply andb_true_iff in H. destruct H as [Hd Hds].
  apply isDigit_not_comma in Hd.
  destruct k; cbn [groupDigits filter]; rewrite ?Hd; cbn [Ascii.eqb negb];
    try (change (Ascii.eqb COMMA COMMA) with true; cbn [negb]);
    now rewrite IH.
Qed.

Lemma groupDigits_commas (ds : list ascii) :
  forallb isDigit ds = true ->
  forall k i,
    k <= 3 -> i < length (groupDigits ds k) ->
    (nth i (groupDigits ds k) COMMA = COMMA <-> i mod 4 = k).
Proof.
  induction ds as [|d ds IH]; intros H k i Hk Hi; [simpl in Hi; lia|].
  cbn [forallb] in H. apply andb_true_iff in H. destruct H as [Hd Hds].
  apply isDigit_not_comma in Hd.
  assert (Hne : d <> COMMA)
    by (intros ->; now rewrite Ascii.eqb_refl in Hd).
  destruct k as [|k]; cbn [groupDigits] in *.
  - destruct i as [|[|i]]; cbn [nth length] in *.
    + split; reflexivity.
    + split; [congruence | discriminate].
    + rewrite (IH Hds 2 i) by lia.
      replace (S (S i)) with (i + 2) by lia.
      pose proof (Nat.mod_upper_bound i 4 ltac:(lia)).
      pose proof (Nat.div_mod_eq i 4). pose proof (Nat.div_mod_eq (i + 2) 4).
      pose proof (Nat.mod_upper_bound (i + 2) 4 ltac:(lia)). lia.
  - destruct i as [|i]; cbn [nth length] in *.
    + split; [congruence | discriminate].
    + rewrite (IH Hds k i) by lia.
      replace (S i) with (i + 1) by lia.
      pose proof (Nat.mod_upper_bound i 4 ltac:(lia)).
      pose proof (Nat.div_mod_eq i 4). pose proof (Nat.div_mod_eq (i + 1) 4).
      pose proof (Nat.mod_upper_bound (i + 1) 4 ltac:(lia)). lia.
Qed.

Lemma formatNumber_nonneg (n : Z) :
  (0 <= n)%Z ->
  list_ascii_of_string (formatNumber n)
  = rev (groupDigits (rev (list_ascii_of_string (showNumber n))) 3).
Proof.
  intros Hn. unfold formatNumber.
  replace (n <? 0)%Z with false by (symmetry; apply Z.ltb_ge; lia).
  rewrite Z.abs_eq by lia. cbn [String.append].
  apply list_ascii_of_string_of_list_ascii.
Qed.

(** X11: [formatNumber] on a count keeps the decimal digits and groups them
    by three from the right: without its commas the text is the decimal
    rendering of the number, and, counting from the right end, the commas
    sit exactly at every fourth place. *)
Theorem formatNumber_groups :
  forall n : Z,
    (0 <= n)%Z ->
    let out := list_ascii_of_string (formatNumber n) in
    filter (fun c => negb (Ascii.eqb c COMMA)) out
      = list_ascii_of_string (showNumber n)
    /\ forallb isDigit (list_ascii_of_string (showNumber n)) = true
    /\ forall i, i < length out ->
                 (nth i (rev out) COMMA = COMMA <-> i mod 4 = 3).
Proof.
  intros n Hn out. subst out. rewrite formatNumber_nonneg by exact Hn.
  pose proof (showNumber_digits Hn) as Hd.
  assert (Hr : forallb isDigit (rev (list_ascii_of_string (showNumber n)))
               = true).
  { rewrite forallb_forall in *. intros c Hc. apply Hd. now apply in_rev. }
  split; [|split; [exact Hd|]].
  - rewrite <- (rev_involutive (list_ascii_of_string (showNumber n))) at 2.
    rewrite <- (groupDigits_digits _ 3 Hr) at 2.
    generalize (groupDigits (rev (list_ascii_of_string (showNumber n))) 3).
    intros l. induction l as [|c l IH]; [reflexivity|].
    cbn [rev filter]. rewrite filter_app, IH. cbn [filter].
    destruct (negb (Ascii.eqb c COMMA)); cbn [rev]; [reflexivity|].
    apply app_nil_r.
  - intros i Hi. rewrite rev_involutive. rewrite length_rev in Hi.
    now apply groupDigits_commas.
Qed.

Lemma formatNumber_groups_witness :
  filter (fun c => negb (Ascii.eqb c COMMA))
    (list_ascii_of_string (formatNumber 1234567))
  = list_ascii_of_string (showNumber 1234567).
Proof.
  exact (proj1 (@formatNumber_groups 1234567 ltac:(discriminate))).
Defined.

(** ** Help, version and positionals *)

(** X12: the help text wins over the version line and both win over the
    analysis: with either option the script prints its one text, exits with
    0 and touches no file, whatever the positionals are. Without them it
    analyses the positionals after the first two, so it exits with 1 exactly
    when there are no more than two. *)
Theorem script_outcome :
  forall (host : Host) (toLowerCase : jsstring -> jsstring)
         (packageName packageVersion bunVersion : string)
         (values : Cli.Values) (positionals : list string),
    let run := script host toLowerCase packageName packageVersion bunVersion
                 values positionals emptyWorld in
    (Cli.help values = true ->
     run = (Exited 0%Z,
            {| results := []; stdout := [HELP_TEXT]; stderr := [] |}))
    /\ (Cli.help values = false -> Cli.version values = true ->
        run = (Exited 0%Z,
               {| results := [];
                  stdout := [(packageName ++ " " ++ packageVersion
                              ++ " (bun " ++ bunVersion ++ ")")%string];
                  stderr := [] |}))
    /\ (Cli.help values = false -> Cli.version values = false ->
        run = main host toLowerCase
                {| recursive := Cli.recursive values;
                   totalOnly := Cli.totalOnly values |}
                (skipn 2 positionals) emptyWorld)
    /\ exitCode run
       = if (Cli.help values || Cli.version values)%bool then 0%Z
         else if length positionals <=? 2 then 1%Z else 0%Z.
Proof.
  intros host lower name ver bunv values positionals run. subst run.
  unfold script.
  destruct (Cli.help values), (Cli.version values);
    (split; [intros; try discriminate; reflexivity|]);
    (split; [intros; try discriminate; reflexivity|]);
    (split; [intros; try discriminate; reflexivity|]);
    try reflexivity.
  cbn [orb].
  change (exitCode
            (main host lower
               {| recursive := Cli.recursive values;
                  totalOnly := Cli.totalOnly values |}
               (skipn 2 positionals) emptyWorld)
          = if length positionals <=? 2 then 1%Z else 0%Z).
  destruct positionals as [|a [|b [|c rest]]]; try reflexivity.
  cbn [skipn length Nat.leb]. now apply main_exitCode.
Qed.

Lemma script_outcome_witness :
  script exampleHost asciiToLowerCase "readlen" "1.0.0" "1.1.0"
    {| Cli.recursive := false; Cli.help := true;
       Cli.version := true; Cli.totalOnly := false |}
    ["bun"; "index.ts"; "missing"]%string emptyWorld
  = (Exited 0%Z, {| results := []; stdout := [HELP_TEXT]; stderr := [] |}).
Proof.
  exact (proj1 (script_outcome exampleHost asciiToLowerCase
                  "readlen" "1.0.0" "1.1.0"
                  {| Cli.recursive := false; Cli.help := true;
                     Cli.version := true; Cli.totalOnly := false |}
                  ["bun"; "index.ts"; "missing"]%string) eq_refl).
Defined.

(** ** The recursive flag *)

(** X13: the recursive flag only adds files: every path that an argument
    expands to without the flag is among the paths that it expands to with
    the flag. *)
Theorem recursive_flag_only_adds :
  forall (fs : FileSystem) (cwd : list string) (arg f : string),
    In f (fst (candidates (fsHost fs cwd) false arg)) ->
    In f (fst (candidates (fsHost fs cwd) true arg)).
Proof.
  intros fs base arg f. unfold candidates.
  destruct (fileExists (fsHost fs base) arg); [trivial|].
  cbn [fsHost globScan]. unfold fsScan. cbn [cwd].
  destruct (realPath fs base arg) as [dir|]; try (intros []).
  destruct (isDirectory fs dir); try (intros []).
  cbn [fst]. rewrite !in_flat_map. intros (entry & Hin & Hf).
  exists entry. split; [exact Hin|].
  apply scanEntry_In in Hf. apply scanEntry_In.
  destruct Hf as (content & rel & He & Ep & Hne & Hv & Hg & Hs).
  exists content, rel. repeat split; try assumption.
  apply globMatch_recursive. left. now apply globMatch_flat.
Qed.

Lemma recursive_flag_only_adds_witness :
  In "/home/docs/b.md"%string
     (fst (candidates exampleHost true "docs"%string)).
Proof.
  apply (@recursive_flag_only_adds exampleFs ["home"%string]
           "docs"%string "/home/docs/b.md"%string).
  vm_compute. right. left. reflexivity.
Defined.

(** ** Totals and order *)

Lemma sumOf_app (f : FileStats -> Z) (a b : list FileStats) :
  sumOf f (a ++ b) = (sumOf f a + sumOf f b)%Z.
Proof.
  unfold sumOf. induction a as [|r a IH]; cbn [app map fold_right]; lia.
Qed.

Lemma sumOf_permutation (f : FileStats -> Z) (a b : list FileStats) :
  Permutation a b -> sumOf f a = sumOf f b.
Proof.
  unfold sumOf. induction 1; cbn [map fold_right]; lia.
Qed.

(** X14: the totals do not depend on the order of the files, and the
    totals of two result lists put together are the sums of their totals:
    this holds of the total of the words, of the characters, of the
    paragraphs and of the read times. *)
Theorem totals_are_order_independent :
  forall a b : list FileStats,
    (Permutation a b ->
     totalWords a = totalWords b /\ totalChars a = totalChars b
     /\ totalParas a = totalParas b /\ totalTime a = totalTime b)
    /\ totalWords (a ++ b) = (totalWords a + totalWords b)%Z
    /\ totalChars (a ++ b) = (totalChars a + totalChars b)%Z
    /\ totalParas (a ++ b) = (totalParas a + totalParas b)%Z
    /\ totalTime (a ++ b) = (totalTime a + totalTime b)%Z.
Proof.
  intros a b. rewrite !totalWords_sum, !totalChars_sum, !totalParas_sum,
    !totalTime_sum, !sumOf_app.
  split; [|repeat split].
  intros Hp. repeat split; now apply sumOf_permutation.
Qed.

Lemma totals_are_order_independent_witness :
  let a := {| path := "a"; metrics := processText asciiToLowerCase (ofAscii "x y") |} in
  let b := {| path := "b"; metrics := processText asciiToLowerCase (ofAscii "z") |} in
  totalWords [a; b] = totalWords [b; a].
Proof.
  intros a b.
  exact (proj1 (proj1 (totals_are_order_independent [a; b] [b; a])
                  (perm_swap b a []))).
Defined.

(** ** More words, more time *)

(** X15: the read time grows with the word count: a text with no more
    words than another has no greater read time, and 238 more words add
    exactly one minute. *)
Theorem readTime_is_monotone :
  forall (toLowerCase : jsstring -> jsstring) (s t : jsstring),
    let a := processText toLowerCase s in
    let b := processText toLowerCase t in
    ((wordCount a <= wordCount b)%Z -> (readTime a <= readTime b)%Z)
    /\ (wordCount b = (wordCount a + 238)%Z ->
        readTime b = (readTime a + 1)%Z).
Proof.
  intros lower s t a b.
  pose proof (processText_readTime_eq lower s) as Ha.
  pose proof (processText_readTime_eq lower t) as Hb.
  fold a in Ha. fold b in Hb. rewrite Ha, Hb.
  split; intros H; Z.to_euclidean_division_equations; lia.
Qed.

Lemma readTime_is_monotone_witness :
  (readTime (processText asciiToLowerCase (wordsText 10))
   <= readTime (processText asciiToLowerCase (wordsText 300)))%Z.
Proof.
  apply (proj1 (readTime_is_monotone asciiToLowerCase
                  (wordsText 10) (wordsText 300))).
  unfold processText; cbn [wordCount].
  rewrite !split_whiteSpace_count. unfold nonWhiteSpaceRuns.
  rewrite !wordsText_count. cbn. lia.
Defined.
